(** * Verification of the OpenMatchEngine container codec and patcher

    A shallow embedding of the byte-level tools of the repository:
    - [prepare_simatch.py]: the in-place patcher [patch_physical_constraints];
    - [src/physics_decode_jsb.py]: the two-copy decoder and its verifier;
    - [src/player_ratings_decoder.py]: the token stream reader and the
      structural parsers built on it.

    Buffers are lists of bytes, Python integers are [Z], offsets are [nat],
    a Python [str] is the list of its code points, and Python exceptions
    are the [Raise] branch of [result].  Of what the programs print, the
    warnings and reports the properties speak of are collected in explicit
    lists; diagnostic dumps and progress lines are left out. *)

From Stdlib Require Import ZArith NArith List String Ascii Lia Bool.
From Stdlib.Strings Require Import Byte.
From stdpp Require Import base list strings gmap.
From Equations Require Import Equations.

Set Warnings "-abstract-large-number".
Open Scope Z_scope.

(** ** Python primitives *)

Module Py.

(** The exceptions the modelled functions can raise.  [RuntimeError] and
    [ValueError] carry a tag standing for the message of the source. *)
Inductive error_tag : Type :=
| AnchorMismatch          (* "Anchor does not point at expected key text" *)
| UnexpectedContainer     (* "Unexpected container marker" / "unknown container" *)
| EOFInside               (* "EOF inside <ctx>" *)
| TokenMismatch           (* "Token mismatch in <ctx>" *)
| KeyTextNotFound         (* "... key text not found" / "... key not found" *)
| BadIntTag               (* "bad int tag" *)
| SubsectionNotFound      (* bytes.index: "subsection not found" *)
| UnexpectedValueMarker   (* "unexpected value marker" *)
| RowCount (declared got : nat). (* "expected D rows, got G (data truncated or malformed)" *)

Inductive exn : Type :=
| IndexError
| OverflowError
| StructError
| ValueError (t : error_tag)
| RuntimeError (t : error_tag).

Inductive result (A : Type) : Type :=
| Ok (a : A)
| Raise (e : exn).
Arguments Ok {A} a.
Arguments Raise {A} e.

#[global] Instance result_ret : MRet result := fun A a => Ok a.
#[global] Instance result_bind : MBind result :=
  fun A B f m => match m with Ok a => f a | Raise e => Raise e end.
#[global] Instance result_fmap : FMap result :=
  fun A B f m => match m with Ok a => Ok (f a) | Raise e => Raise e end.

#[global] Instance byte_eq_decision : EqDecision byte.
Proof.
  intros a b. destruct (Byte.eqb a b) eqn:E.
  - left. now apply Byte.byte_dec_bl.
  - right. now apply Byte.eqb_false.
Defined.

Ltac result_simpl :=
  cbn [mbind result_bind fmap result_fmap mret result_ret] in *.

(** Numeric value of a byte, and the byte of a number taken modulo 256. *)
Definition byte_val (b : byte) : Z := Z.of_N (Byte.to_N b).

Definition byte_of_Z (z : Z) : byte :=
  match Byte.of_N (Z.to_N (z mod 256)) with
  | Some b => b
  | None => x00
  end.

(** [b[i]] on a [bytes] or [bytearray] with [0 <= i]: IndexError past the end. *)
Definition getitem (b : list byte) (i : nat) : result byte :=
  match b !! i with
  | Some x => Ok x
  | None => Raise IndexError
  end.

(** [b[lo:hi]] for [0 <= lo]: both bounds are clamped to [len(b)]. *)
Definition slice (b : list byte) (lo hi : nat) : list byte :=
  take (hi - lo) (drop lo b).

(** [b[lo:hi] = v] on a [bytearray], for [0 <= lo <= hi]: the (clamped)
    slice is replaced by [v], whatever the two lengths are. *)
Definition slice_assign (b : list byte) (lo hi : nat) (v : list byte) : list byte :=
  take lo b ++ v ++ drop hi b.

(** [v.to_bytes(n, "little", signed=False)]: OverflowError ([None]) when [v]
    is negative or does not fit in [n] bytes. *)
Fixpoint le_bytes (n : nat) (v : Z) : list byte :=
  match n with
  | O => []
  | S k => byte_of_Z v :: le_bytes k (v / 256)
  end.

Definition to_bytes (n : nat) (v : Z) : option (list byte) :=
  if (0 <=? v) && (v <? 256 ^ Z.of_nat n) then Some (le_bytes n v) else None.

(** [int.from_bytes(bs, "little")], unsigned. *)
Fixpoint from_bytes (bs : list byte) : Z :=
  match bs with
  | [] => 0
  | b :: r => byte_val b + 256 * from_bytes r
  end.

(** Two's complement reading of an unsigned [n]-byte value. *)
Definition to_signed (n : nat) (u : Z) : Z :=
  if u <? 2 ^ (8 * Z.of_nat n - 1) then u else u - 2 ^ (8 * Z.of_nat n).

(** [struct.unpack_from(fmt, data, p)[0]] for the formats of the sources:
    "<I" and "<Q" (unsigned, 4 and 8 bytes), "<i" and "<q" (signed).
    struct.error when fewer than the needed bytes remain after [p]. *)
Definition unpack_unsigned (n : nat) (data : list byte) (p : nat) : result Z :=
  let bs := slice data p (p + n) in
  if decide (length bs = n) then Ok (from_bytes bs) else Raise StructError.

Definition unpack_signed (n : nat) (data : list byte) (p : nat) : result Z :=
  to_signed n <$> unpack_unsigned n data p.

End Py.
Import Py.

(** ** The patcher of [prepare_simatch.py] *)

Module Patcher.

(** One entry of the offset table: the dict with the keys "loc" and "loc2",
    either of which may be absent for the patch loop. *)
Record offsets : Type := { loc : option nat; loc2 : option nat }.

Definition entry (a b : nat) : offsets := {| loc := Some a; loc2 := Some b |}.

Definition offset_table : Type := list (string * offsets).

Fixpoint table_get (t : offset_table) (key : string) : option offsets :=
  match t with
  | [] => None
  | (k, e) :: r => if String.eqb key k then Some e else table_get r key
  end.

Definition physical_constraints_offsets : offset_table := [
  ("acceleration_scaler", entry 0x0016 0x0b1d);
  ("base_top_speed", entry 0x002f 0x0b36);
  ("basic_header_speed", entry 0x0043 0x0b4a);
  ("fast_jog_speed", entry 0x005b 0x0b62);
  ("fast_walk_speed", entry 0x006f 0x0b76);
  ("hard_kick_speed", entry 0x0084 0x0b8b);
  ("jog_speed", entry 0x0099 0x0ba0);
  ("medium_kick_speed", entry 0x00a8 0x0baf);
  ("medium_to_moderate_kick_speed", entry 0x00bf 0x0bc6);
  ("min_delay_for_ball_lunge_do", entry 0x00e2 0x0be9);
  ("min_delay_for_ball_lunge_receive", entry 0x0103 0x0c0a);
  ("min_delay_for_block_tackle_do", entry 0x0129 0x0c30);
  ("min_delay_for_block_tackle_receive", entry 0x014c 0x0c53);
  ("min_delay_for_celebrating_a_goal", entry 0x0174 0x0c7b);
  ("min_delay_for_deflect_ball_do", entry 0x019a 0x0ca1);
  ("min_delay_for_deflect_ball_receive", entry 0x01bd 0x0cc4);
  ("min_delay_for_diving_header", entry 0x01e5 0x0cec);
  ("min_delay_for_foot_up_in_tackle_do", entry 0x0206 0x0d0d);
  ("min_delay_for_foot_up_in_tackle_receive", entry 0x022e 0x0d35);
  ("min_delay_for_force_opponent_to_lose_ball_do", entry 0x025b 0x0d62);
  ("min_delay_for_force_opponent_to_lose_ball_receive", entry 0x028d 0x0d94);
  ("min_delay_for_getting_injured", entry 0x02c4 0x0dcb);
  ("min_delay_for_normal_header", entry 0x02e7 0x0dee);
  ("min_delay_for_obstruct_do", entry 0x0308 0x0e0f);
  ("min_delay_for_obstruct_receive", entry 0x0327 0x0e2e);
  ("min_delay_for_player_stop_to_avoid_collision", entry 0x034b 0x0e52);
  ("min_delay_for_push_opponen_receive", entry 0x037d 0x0e84);
  ("min_delay_for_push_opponent_do", entry 0x03a5 0x0eac);
  ("min_delay_for_shirt_tug_do", entry 0x03c9 0x0ed0);
  ("min_delay_for_shirt_tug_receive", entry 0x03e5 0x0eec);
  ("min_delay_for_shoulder_charge_do", entry 0x040a 0x0f11);
  ("min_delay_for_shoulder_charge_receive", entry 0x0430 0x0f37);
  ("min_delay_for_slide_tackle_do", entry 0x045b 0x0f62);
  ("min_delay_for_slide_tackle_receive", entry 0x047e 0x0f85);
  ("min_delay_for_trip_do", entry 0x04a6 0x0fad);
  ("min_delay_for_trip_receive", entry 0x04c1 0x0fc8);
  ("min_delay_for_two_footed_tackle_do", entry 0x04e1 0x0fe8);
  ("min_delay_for_two_footed_tackle_receive", entry 0x0509 0x1010);
  ("min_delay_for_violent_act_do", entry 0x0536 0x103d);
  ("min_delay_for_violent_act_receive", entry 0x0558 0x105f);
  ("min_delay_keeper_drop_ball_for_distribution", entry 0x057f 0x1086);
  ("min_delay_keeper_save_dive_and_hold_ball", entry 0x05b0 0x10b7);
  ("min_delay_keeper_save_dive_but_not_held", entry 0x05de 0x10e5);
  ("min_delay_keeper_save_intentionally_drop_ball", entry 0x060b 0x1112);
  ("min_delay_keeper_save_no_dive_hold_ball", entry 0x063e 0x1145);
  ("min_delay_keeper_save_no_dive_not_held", entry 0x066b 0x1172);
  ("min_delay_keeper_save_with_outreached_foot", entry 0x0697 0x119e);
  ("min_extra_delay_for_falling_down_before_injury", entry 0x06c7 0x11ce);
  ("version_major", entry 0x070b 0x1212);
  ("version_minor", entry 0x071a 0x1221);
  ("version_release", entry 0x0729 0x1230);
  ("version_year", entry 0x073a 0x1241);
  ("moderate_jog_speed", entry 0x074c 0x124f);
  ("moderate_kick_speed", entry 0x0764 0x1267);
  ("quite_hard_kick_speed", entry 0x077d 0x1280);
  ("run_speed", entry 0x0798 0x129b);
  ("slow_jog_speed", entry 0x07a7 0x12aa);
  ("slow_walk_speed", entry 0x07bb 0x12be);
  ("soft_kick_speed", entry 0x07d0 0x12d3);
  ("soft_to_medium_kick_speed", entry 0x07e5 0x12e8);
  ("speed_scaler", entry 0x0804 0x1307);
  ("sprint_speed", entry 0x0816 0x1319);
  ("theoretical_max_acceleration", entry 0x0828 0x132b);
  ("theoretical_max_deceleration", entry 0x084a 0x134d);
  ("theoretical_max_diving_acceleration", entry 0x086c 0x136f);
  ("theoretical_max_diving_speed", entry 0x0895 0x1398);
  ("theoretical_max_potential_direction_change_jog", entry 0x08b7 0x13ba);
  ("theoretical_max_potential_direction_change_run", entry 0x08eb 0x13ee);
  ("theoretical_max_potential_direction_change_walk", entry 0x091f 0x1422);
  ("theoretical_max_running_speed", entry 0x0954 0x1457);
  ("theoretical_max_turning_rate", entry 0x0977 0x147a);
  ("theoretical_min_acceleration", entry 0x0999 0x149c);
  ("theoretical_min_deceleration", entry 0x09bb 0x14be);
  ("theoretical_min_diving_acceleration", entry 0x09dd 0x14e0);
  ("theoretical_min_diving_speed", entry 0x0a06 0x1509);
  ("theoretical_min_potential_direction_change_jog", entry 0x0a28 0x152b);
  ("theoretical_min_potential_direction_change_run", entry 0x0a5c 0x155f);
  ("theoretical_min_potential_direction_change_walk", entry 0x0a90 0x1593);
  ("top_speed", entry 0x0ac5 0x15c8);
  ("very_hard_kick_speed", entry 0x0ad4 0x15d7);
  ("very_slow_walk_speed", entry 0x0aee 0x15f1);
  ("walk_speed", entry 0x0b08 0x160b)
]%nat.

Definition ignored_keys : list string :=
  ["version_year"; "version_major"; "version_minor"; "version_release";
   "version_year"]%string.

Definition is_ignored (key : string) : bool :=
  existsb (String.eqb key) ignored_keys.

(** What the patcher prints while it runs. *)
Inductive message : Type :=
| KeyNotInTable (key : string)
    (* "Warning: Key '<key>' not found in offsets table, skipping." *)
| IndicatorWarning (key : string) (ind : byte).
    (* "Warning: Indicator byte for key '<key>' is <ind>, this limits
        editing. Skipping..." *)

Definition pstate : Type := list byte * list message.

(** The offsets visited by [for loc_key in ("loc", "loc2")], absent ones skipped. *)
Definition occurrences (e : offsets) : list nat :=
  match loc e with Some a => [a] | None => [] end ++
  match loc2 e with Some b => [b] | None => [] end.

(** Body of the inner loop (lines 595-606) for one occurrence. *)
Definition patch_occurrence (key : string) (val : Z) (offset : nat)
  (st : pstate) : result pstate :=
  let '(jsb_data, out) := st in
  let indicator_pos := (offset + String.length key)%nat in
  ind ← getitem jsb_data indicator_pos;
  if negb (byte_val ind =? 0x02) then
    Ok (jsb_data, out ++ [IndicatorWarning key ind])
  else
    let data_pos := (indicator_pos + 1)%nat in
    match to_bytes 4 val with
    | None => Raise OverflowError
    | Some value_bytes =>
        Ok (slice_assign jsb_data data_pos (data_pos + 4) value_bytes, out)
    end.

Fixpoint patch_locs (key : string) (val : Z) (offs : list nat)
  (st : pstate) : result pstate :=
  match offs with
  | [] => Ok st
  | offset :: rest =>
      st' ← patch_occurrence key val offset st;
      patch_locs key val rest st'
  end.

(** Body of the outer loop (lines 586-606) for one item of [updates]. *)
Definition patch_key (table : offset_table) (key : string) (val : Z)
  (st : pstate) : result pstate :=
  if is_ignored key then Ok st
  else
    match table_get table key with
    | None => Ok (st.1, st.2 ++ [KeyNotInTable key])
    | Some e => patch_locs key val (occurrences e) st
    end.

Fixpoint patch_loop (table : offset_table) (updates : list (string * Z))
  (st : pstate) : result pstate :=
  match updates with
  | [] => Ok st
  | (key, val) :: rest =>
      st' ← patch_key table key val st;
      patch_loop table rest st'
  end.

(** The patch of a buffer against an offset table: the [try] block from the
    loop on.  [Ok (buf, out)] is the buffer handed to [write_bytes] and the
    warnings printed; [Raise e] is an exception reaching the handler, which
    exits without writing anything. *)
Definition patch (table : offset_table) (jsb_data : list byte)
  (updates : list (string * Z)) : result pstate :=
  patch_loop table updates (jsb_data, []).

(** [patch_physical_constraints]: the patch against the table of the module. *)
Definition patch_physical_constraints (jsb_data : list byte)
  (updates : list (string * Z)) : result pstate :=
  patch physical_constraints_offsets jsb_data updates.


(** *** Buffer-level view of the patch, used to reason about it

    A write operation is an indicator position with the value to store; the
    patch of a buffer is the run of the operations its updates unfold to. *)

Definition write_op (op : nat * Z) (b : list byte) : result (list byte) :=
  ind ← getitem b op.1;
  if negb (byte_val ind =? 0x02) then Ok b
  else
    match to_bytes 4 op.2 with
    | None => Raise OverflowError
    | Some value_bytes =>
        Ok (slice_assign b (op.1 + 1) (op.1 + 1 + 4) value_bytes)
    end.

Fixpoint run_ops (ops : list (nat * Z)) (b : list byte) : result (list byte) :=
  match ops with
  | [] => Ok b
  | op :: rest => b' ← write_op op b; run_ops rest b'
  end.

Definition key_ops (table : offset_table) (key : string) (val : Z) : list (nat * Z) :=
  if is_ignored key then []
  else
    match table_get table key with
    | None => []
    | Some e => map (fun off => ((off + String.length key)%nat, val)) (occurrences e)
    end.

Definition flat_ops (table : offset_table) (updates : list (string * Z)) : list (nat * Z) :=
  flat_map (fun kv => key_ops table kv.1 kv.2) updates.

(** Indicator positions of a table, those of its ignored keys left out or not. *)
Definition entry_ips (ke : string * offsets) : list nat :=
  map (fun off => (off + String.length ke.1)%nat) (occurrences ke.2).

Definition table_ips (table : offset_table) : list nat :=
  flat_map entry_ips table.

Definition editable_ips (table : offset_table) : list nat :=
  flat_map entry_ips (List.filter (fun ke => negb (is_ignored ke.1)) table).

(** [x] lies in the value window of the indicator position [p]. *)
Definition in_window (p x : nat) : Prop := (p < x <= p + 4)%nat.

Definition in_windowb (p x : nat) : bool := (p <? x)%nat && (x <=? p + 4)%nat.

(** No indicator position of the list lies in the value window of another. *)
Definition stable (ips : list nat) : Prop :=
  forall p q, In p ips -> In q ips -> ~ in_window p q.

Definition stableb (ips : list nat) : bool :=
  forallb (fun p => forallb (fun q => negb (in_windowb p q)) ips) ips.

(** The bytes of an occurrence of [key] at [off]: key text, indicator, value. *)
Definition in_occurrence (key : string) (off x : nat) : Prop :=
  (off <= x < off + String.length key + 5)%nat.

(** No value window of [ips] meets an occurrence of [ke]. *)
Definition clear_ofb (ips : list nat) (ke : string * offsets) : bool :=
  forallb (fun off =>
    forallb (fun p => (p + 4 <? off)%nat || (off + String.length ke.1 + 5 <=? p + 1)%nat) ips)
    (occurrences ke.2).

Definition version_fields : list string :=
  ["version_major"; "version_minor"; "version_release"; "version_year"]%string.

(** [x] lies in the window of an operation of [ops] whose indicator in [b]
    is the int32 marker. *)
Definition active (ops : list (nat * Z)) (b : list byte) (x : nat) : Prop :=
  exists o, In o ops /\ b !! o.1 = Some x02 /\ in_window o.1 x.

(** The field a message names. *)
Definition message_key (m : message) : string :=
  match m with
  | KeyNotInTable key => key
  | IndicatorWarning key _ => key
  end.

Definition not_about_ignored (m : message) : Prop := is_ignored (message_key m) = false.

(** *** Occurrence-level view of the patch

    The visits the nested loops of the patch make, in the order they make
    them: an edit of an ignored key gives none; an edit of a key that is not
    in the table gives one [Unknown] visit; any other edit gives one
    [Occurrence] visit per occurrence offset of its table entry. *)
Inductive visit : Type :=
  | Occurrence (key : string) (val : Z) (offset : nat)
  | Unknown (key : string).

Definition key_visits (table : offset_table) (key : string) (val : Z) : list visit :=
  if is_ignored key then []
  else
    match table_get table key with
    | None => [Unknown key]
    | Some e => map (Occurrence key val) (occurrences e)
    end.

Definition visits (table : offset_table) (updates : list (string * Z)) : list visit :=
  flat_map (fun kv => key_visits table kv.1 kv.2) updates.

(** One visit: the body of the innermost loop at an occurrence, the
    "not found" warning at an unknown key. *)
Definition treat (v : visit) (st : pstate) : result pstate :=
  match v with
  | Occurrence key val offset => patch_occurrence key val offset st
  | Unknown key => Ok (st.1, st.2 ++ [KeyNotInTable key])
  end.

(** The visits in sequence, each on the state the one before it leaves; the
    first exception ends the run. *)
Fixpoint run_visits (vs : list visit) (st : pstate) : result pstate :=
  match vs with
  | [] => Ok st
  | v :: rest => st' ← treat v st; run_visits rest st'
  end.

End Patcher.

(** ** The decoder and verifier of [src/physics_decode_jsb.py] *)

Module Physics.
Import Patcher.

(** [_ASCII_OK]: letters, digits and the underscore. *)
Definition _ASCII_OK (b : byte) : bool :=
  let v := byte_val b in
  ((0x41 <=? v) && (v <=? 0x5A)) || ((0x61 <=? v) && (v <=? 0x7A)) ||
  ((0x30 <=? v) && (v <=? 0x39)) || (v =? 0x5F).

Fixpoint ascii_run (l : list byte) : nat :=
  match l with
  | b :: r => if _ASCII_OK b then S (ascii_run r) else O
  | [] => O
  end.

(** Index of the first byte at or after [pos] that is not in [_ASCII_OK]
    (the length of the buffer when there is none). *)
Definition _find_indicator (jsb : list byte) (pos : nat) : nat :=
  (pos + ascii_run (drop pos jsb))%nat.

Definition _int_size (ind : byte) : option nat :=
  let v := byte_val ind in
  if v =? 0x02 then Some 4%nat
  else if negb (Z.land v 0x80 =? 0) && (Z.land v 0x0F =? 0x02) then Some 1%nat
  else None.

(** [_grab]: the integer stored at the occurrence that starts at [loc], or
    [None].  The value is read with [int.from_bytes(blob, "little")]. *)
Definition _grab (jsb : list byte) (key : string) (loc : option nat) : result (option Z) :=
  match loc with
  | None => Ok None
  | Some loc =>
    let ind_pos := _find_indicator jsb loc in
    ind ← getitem jsb ind_pos;
    match _int_size ind with
    | None => Ok None
    | Some size =>
      let blob := slice jsb (ind_pos + 1) (ind_pos + 1 + size) in
      if negb (length blob =? size)%nat then Ok None
      else Ok (Some (from_bytes blob))
    end
  end.

(** The two objects built by [decode_physical_constraints] over the table of
    the module, which repeats the table of [prepare_simatch.py] entry for
    entry, with the same set of ignored keys. *)
Fixpoint decode_loop (jsb : list byte) (table : offset_table)
  (objs : gmap string Z * gmap string Z) : result (gmap string Z * gmap string Z) :=
  match table with
  | [] => Ok objs
  | (key, offs) :: rest =>
    if is_ignored key then decode_loop jsb rest objs
    else
      obj1_val ← _grab jsb key (loc offs);
      obj2_val ← _grab jsb key (loc2 offs);
      let obj1 := match obj1_val with Some v => <[key := v]> objs.1 | None => objs.1 end in
      let obj2 := match obj2_val with Some v => <[key := v]> objs.2 | None => objs.2 end in
      decode_loop jsb rest (obj1, obj2)
  end.

Definition decode_physical_constraints (jsb : list byte) :
  result (gmap string Z * gmap string Z) :=
  decode_loop jsb physical_constraints_offsets (∅, ∅).

(** What [verify_physical_constraints] prints. *)
Inductive report : Type :=
| NothingToVerify
| WARN (key : string) (obj1 obj2 : option Z) (expected : Z)
| FAIL (key : string) (obj1 obj2 : option Z) (expected : Z)
| Succeeded
| Failed.

(** The loop of lines 524-532 over the items of [desired]. *)
Fixpoint verify_loop (obj1 obj2 : gmap string Z) (desired : list (string * Z))
  (st : bool * list report) : bool * list report :=
  match desired with
  | [] => st
  | (key, exp) :: rest =>
    let v1 := obj1 !! key in
    let v2 := obj2 !! key in
    let st :=
      if bool_decide (v1 = Some exp) || bool_decide (v2 = Some exp) then
        if negb (bool_decide (v1 = v2))
        then (st.1, st.2 ++ [WARN key v1 v2 exp])
        else st
      else (false, st.2 ++ [FAIL key v1 v2 exp]) in
    verify_loop obj1 obj2 rest st
  end.

(** [verify_physical_constraints] on the bytes of the JSB file and the
    content of the desired-values JSON ([None] when the file is absent):
    the boolean returned and what was printed. *)
Definition verify_physical_constraints (jsb : list byte)
  (desired : option (list (string * Z))) : result (bool * list report) :=
  match desired with
  | None => Ok (false, [NothingToVerify])
  | Some desired =>
    '(obj1, obj2) ← decode_physical_constraints jsb;
    let '(ok, out) := verify_loop obj1 obj2 desired (true, []) in
    Ok (ok, out ++ [if ok then Succeeded else Failed])
  end.

(** At least one of the two decoded copies holds the expected value. *)
Definition passes (obj1 obj2 : gmap string Z) (key : string) (exp : Z) : Prop :=
  obj1 !! key = Some exp \/ obj2 !! key = Some exp.

(** What the loop prints for one item of the desired values. *)
Definition item_report (obj1 obj2 : gmap string Z) (kv : string * Z) : list report :=
  let v1 := obj1 !! kv.1 in
  let v2 := obj2 !! kv.1 in
  if bool_decide (v1 = Some kv.2) || bool_decide (v2 = Some kv.2) then
    if bool_decide (v1 = v2) then [] else [WARN kv.1 v1 v2 kv.2]
  else [FAIL kv.1 v1 v2 kv.2].

End Physics.

(** ** Text *)

Module Text.

(** A Python [str] is the list of its code points. *)
Definition pystr : Type := list Z.

Definition str_of (s : string) : pystr := map byte_val (list_byte_of_string s).

Definition replacement : Z := 0xFFFD.

Definition in_range (lo hi v : Z) : bool := (lo <=? v) && (v <=? hi).

Definition is_cont (b : byte) : bool := in_range 0x80 0xBF (byte_val b).

(** The second byte a three- or four-byte lead admits (Unicode, table 3-7). *)
Definition second_ok (lead : Z) (b : byte) : bool :=
  let v := byte_val b in
  if lead =? 0xE0 then in_range 0xA0 0xBF v
  else if lead =? 0xED then in_range 0x80 0x9F v
  else if lead =? 0xF0 then in_range 0x90 0xBF v
  else if lead =? 0xF4 then in_range 0x80 0x8F v
  else in_range 0x80 0xBF v.

Definition low6 (b : byte) : Z := Z.land (byte_val b) 0x3F.

(** [bytes.decode("utf-8", "replace")]: well-formed sequences give their code
    point; an ill-formed one gives U+FFFD for its longest prefix that starts
    a well-formed sequence (one byte at least), and decoding resumes after
    that prefix.  It never fails. *)
Fixpoint decode (l : list byte) : pystr :=
  match l with
  | [] => []
  | b0 :: r =>
    let v0 := byte_val b0 in
    if v0 <? 0x80 then v0 :: decode r
    else if in_range 0xC2 0xDF v0 then
      match r with
      | b1 :: r1 =>
        if is_cont b1 then (Z.land v0 0x1F * 64 + low6 b1) :: decode r1
        else replacement :: decode r
      | [] => [replacement]
      end
    else if in_range 0xE0 0xEF v0 then
      match r with
      | b1 :: r1 =>
        if second_ok v0 b1 then
          match r1 with
          | b2 :: r2 =>
            if is_cont b2 then
              (Z.land v0 0x0F * 4096 + low6 b1 * 64 + low6 b2) :: decode r2
            else replacement :: decode r1
          | [] => [replacement]
          end
        else replacement :: decode r
      | [] => [replacement]
      end
    else if in_range 0xF0 0xF4 v0 then
      match r with
      | b1 :: r1 =>
        if second_ok v0 b1 then
          match r1 with
          | b2 :: r2 =>
            if is_cont b2 then
              match r2 with
              | b3 :: r3 =>
                if is_cont b3 then
                  (Z.land v0 0x07 * 262144 + low6 b1 * 4096 + low6 b2 * 64 + low6 b3)
                    :: decode r3
                else replacement :: decode r2
              | [] => [replacement]
              end
            else replacement :: decode r1
          | [] => [replacement]
          end
        else replacement :: decode r
      | [] => [replacement]
      end
    else replacement :: decode r
  end.

End Text.
Import Text.

(** ** The decoder of [src/player_ratings_decoder.py] *)

Module Ratings.

(** [data.find(sub, start)]: the lowest index at or after [start] where [sub]
    occurs, [None] for the -1 of the source.  [data.index] is the same search
    with ValueError for [None]. *)
Fixpoint starts_with (sub l : list byte) : bool :=
  match sub, l with
  | [], _ => true
  | a :: sub', b :: l' => Byte.eqb a b && starts_with sub' l'
  | _ :: _, [] => false
  end.

Fixpoint find_in (sub l : list byte) (pos : nat) : option nat :=
  if starts_with sub l then Some pos
  else
    match l with
    | [] => None
    | _ :: l' => find_in sub l' (S pos)
    end.

Definition bytes_find (data sub : list byte) (start : nat) : option nat :=
  if (start <=? length data)%nat then find_in sub (drop start data) start else None.

Definition bytes_index (data sub : list byte) (start : nat) : result nat :=
  match bytes_find data sub start with
  | Some k => Ok k
  | None => Raise (ValueError SubsectionNotFound)
  end.

(** *** Endianness helpers *)

Definition i32 (b : list byte) : result Z := unpack_signed 4 b 0.
Definition i64 (b : list byte) : result Z := unpack_signed 8 b 0.
Definition u32 (b : list byte) : result Z := unpack_unsigned 4 b 0.

(** *** Token reader *)

(** The type and value of a token: "i32", "i64" and "str" with their value,
    and "ctl" with the marker byte its text "<m0x..>" is printed from. *)
Inductive tokval : Type :=
| I32 (v : Z)
| I64 (v : Z)
| Str (s : pystr)
| Ctl (vmark : byte).

Inductive typ : Type := T_i32 | T_i64 | T_str | T_ctl.

Definition typ_of (v : tokval) : typ :=
  match v with
  | I32 _ => T_i32
  | I64 _ => T_i64
  | Str _ => T_str
  | Ctl _ => T_ctl
  end.

Definition typ_eqb (a b : typ) : bool :=
  match a, b with
  | T_i32, T_i32 | T_i64, T_i64 | T_str, T_str | T_ctl, T_ctl => true
  | _, _ => false
  end.

(** The tuple [(key, typ, val, cursor)] a stream yields. *)
Record token : Type := { key : pystr; val : tokval; cursor : nat }.

Definition is_prefix_mark (mark : byte) : bool :=
  existsb (Z.eqb (byte_val mark)) [0x2A; 0x4A; 0x5A; 0x6A].

Definition klen_ok (klen : byte) : bool :=
  (0 <? byte_val klen) && (byte_val klen <=? 96).

(** Lines 327-351: the key text of [klen] bytes at [i], the value marker and
    the value; the token carries the cursor after the value. *)
Definition read_token (buf : list byte) (i : nat) (klen : nat) : result token :=
  let key := decode (slice buf i (i + klen)) in
  let i := (i + klen)%nat in
  vmark ← getitem buf i;
  let i := (i + 1)%nat in
  if byte_val vmark =? 0x02 then
    v ← i32 (slice buf i (i + 4));
    Ok {| key := key; val := I32 v; cursor := (i + 4)%nat |}
  else if byte_val vmark =? 0x03 then
    v ← i64 (slice buf i (i + 8));
    Ok {| key := key; val := I64 v; cursor := (i + 8)%nat |}
  else if byte_val vmark =? 0x08 then
    slen ← u32 (slice buf i (i + 4));
    let i := (i + 4)%nat in
    let slen := Z.to_nat slen in
    Ok {| key := key; val := Str (decode (slice buf i (i + slen)));
          cursor := (i + slen)%nat |}
  else if in_range 0x80 0x8F (byte_val vmark) then
    let slen := Z.to_nat (Z.land (byte_val vmark) 0x0F) in
    Ok {| key := key; val := Str (decode (slice buf i (i + slen)));
          cursor := (i + slen)%nat |}
  else
    Ok {| key := key; val := Ctl vmark; cursor := i |}.

(** One turn of the [while] loop at position [i]: either the loop goes on
    at another position ([continue]) or a token is yielded. *)
Inductive turn : Type :=
| Continue (i : nat)
| Yield (t : token).

Definition tok_step (buf : list byte) (i : nat) : result turn :=
  mark ← getitem buf i;
  if is_prefix_mark mark then
    let i := (i + 1)%nat in
    klen ← getitem buf i;
    let i := (i + 1)%nat in
    if negb (klen_ok klen) then Ok (Continue i)
    else Yield <$> read_token buf i (Z.to_nat (byte_val klen))
  else if klen_ok mark then
    Yield <$> read_token buf (i + 1) (Z.to_nat (byte_val mark))
  else Ok (Continue (i + 1)).

Definition inspect {A : Type} (a : A) : {b : A | a = b} := exist _ a eq_refl.

Lemma tok_step_continue (buf : list byte) (i i' : nat) :
  tok_step buf i = Ok (Continue i') -> (i < i')%nat.
Proof.
  unfold tok_step. destruct (getitem buf i) as [mark|]; result_simpl; [|discriminate].
  destruct (is_prefix_mark mark).
  - destruct (getitem buf (i + 1)) as [klen|]; result_simpl; [|discriminate].
    destruct (negb (klen_ok klen)).
    + intros [= <-]. lia.
    + destruct (read_token _ _ _); discriminate.
  - destruct (klen_ok mark).
    + destruct (read_token _ _ _); discriminate.
    + intros [= <-]. lia.
Qed.

(** The bound [n] of a stream: [len(buf) if stop is None else stop]. *)
Definition stream_bound (buf : list byte) (stop : option nat) : nat :=
  match stop with
  | None => length buf
  | Some s => s
  end.

(** [next(ts)] for a stream [ts] over [buf] bounded by [n] whose position is
    [i]: the next token ([None] for StopIteration).  The position of the
    stream after a token is the cursor of the token; the test [i >= n] after
    the [yield] is subsumed by the loop test. *)
Equations? tok_next (buf : list byte) (n i : nat) : result (option token)
  by wf (n - i)%nat lt :=
  tok_next buf n i with decide (i + 2 < n)%nat := {
    | right _ := Ok None;
    | left Hlt with inspect (tok_step buf i) := {
      | exist _ (Raise e) _ := Raise e;
      | exist _ (Ok (Yield t)) _ := Ok (Some t);
      | exist _ (Ok (Continue i')) Hs := tok_next buf n i' } }.
Proof. apply tok_step_continue in Hs. lia. Qed.

(** [expect]: the next token of the stream must have the wanted key and one
    of the wanted types; its value and cursor are returned. *)
Definition expect (buf : list byte) (n ts : nat) (wanted_key : string)
  (wanted_typ : list typ) : result (tokval * nat) :=
  t ← tok_next buf n ts;
  match t with
  | None => Raise (RuntimeError EOFInside)
  | Some t =>
    let type_ok := existsb (typ_eqb (typ_of (val t))) wanted_typ in
    if negb (bool_decide (key t = str_of wanted_key)) || negb type_ok
    then Raise (RuntimeError TokenMismatch)
    else Ok (val t, cursor t)
  end.

(** [body_start]: the first token after the container marker of [key]. *)
Definition body_start (buf : list byte) (anchor : nat) (key : string) : result nat :=
  let k := list_byte_of_string key in
  if negb (bool_decide (slice buf anchor (anchor + length k) = k))
  then Raise (ValueError AnchorMismatch)
  else
    let cursor := (anchor + length k)%nat in
    ctl ← getitem buf cursor;
    if negb (existsb (Z.eqb (byte_val ctl)) [0xC9; 0x99])
    then Raise (ValueError UnexpectedContainer)
    else Ok (cursor + 1)%nat.

Record Expected_score_object : Type :=
  { name : pystr; negative_multiplier : Z; positive_multiplier : Z }.

(** The integer of a token that [expect] has checked to be "i32" or "i64",
    the text of one checked to be "str". *)
Definition int_value (v : tokval) : Z :=
  match v with
  | I32 z | I64 z => z
  | _ => 0
  end.

Definition str_value (v : tokval) : pystr :=
  match v with
  | Str s => s
  | _ => []
  end.

(** [name and ord(name[-1]) < 32] *)
Definition ends_with_control (name : pystr) : bool :=
  match last name with
  | Some c => c <? 32
  | None => false
  end.

(** One row of [parse_expected_score] (lines 435-457) read from the stream
    at position [ts]; the row and the position of the stream after it. *)
Definition parse_expected_row (buf : list byte) (stop : nat) (verbose : bool)
  (ts : nat) : result (Expected_score_object * nat) :=
  '(name, n_pos) ← expect buf stop ts "name" [T_str];
  let name := str_value name in
  let '(name, ts) :=
    if ends_with_control name
    then (if verbose then removelast name else name, (n_pos - 1)%nat)
    else (name, n_pos) in
  '(neg, neg_pos) ← expect buf stop ts "negative_multiplier" [T_i32; T_i64];
  '(pos, pos_pos) ← expect buf stop neg_pos "positive_multiplier" [T_i32; T_i64];
  Ok ({| name := name; negative_multiplier := int_value neg;
         positive_multiplier := int_value pos |}, pos_pos).

Fixpoint parse_expected_rows (buf : list byte) (stop : nat) (verbose : bool)
  (rows : nat) (ts : nat) (triplets : list Expected_score_object) :
  result (list Expected_score_object) :=
  match rows with
  | O => Ok triplets
  | S rows' =>
    '(t, ts') ← parse_expected_row buf stop verbose ts;
    parse_expected_rows buf stop verbose rows' ts' (triplets ++ [t])
  end.

Definition parse_expected_score (buf : list byte) (start stop : nat) (verbose : bool) :
  result (list Expected_score_object) :=
  body ← body_start buf start "expected_score_data";
  parse_expected_rows buf stop verbose 11 body [].

(** *** role_data *)

(** [_read_varint]: seven bits per byte, least significant group first, up
    to the first byte below 0x80, then the ZigZag decoding.  Reading past
    the end of the data is an IndexError. *)
Fixpoint varint_loop (l : list byte) (res shift : Z) (p_ : nat) : result (Z * nat) :=
  match l with
  | [] => Raise IndexError
  | b :: r =>
    let res := Z.lor res (Z.shiftl (Z.land (byte_val b) 0x7F) shift) in
    let p_ := (p_ + 1)%nat in
    if byte_val b <? 0x80 then Ok (res, p_)
    else varint_loop r res (shift + 7) p_
  end.

Definition _read_varint (buf_ : list byte) (p_ : nat) : result (Z * nat) :=
  '(res, p_) ← varint_loop (drop p_ buf_) 0 0 p_;
  Ok (Z.lxor (Z.shiftr res 1) (- Z.land res 1), p_).

Inductive Role_object : Type :=
| mk_Role_object (name : pystr) (value : Z).

Definition NAME_S : list byte := list_byte_of_string ":" ++ [x04] ++ list_byte_of_string "name".
Definition VALUE_S : list byte := [x05] ++ list_byte_of_string "value".

Fixpoint strip_control (raw : list byte) : list byte :=
  match raw with
  | b :: r => if byte_val b <? 32 then strip_control r else raw
  | [] => []
  end.

Definition _clean_label (raw : list byte) : pystr :=
  match raw with
  | [] => []
  | tag :: _ =>
    let raw :=
      if (byte_val tag =? 0x08) && (5 <=? length raw)%nat then drop 5 raw
      else if (0x80 <=? byte_val tag) || (byte_val tag =? 0x68) then drop 1 raw
      else strip_control raw in
    decode raw
  end.

(** The value that follows the "value" label at [p] and the offset after it
    (lines 545-565). *)
Definition role_value (data : list byte) (p : nat) : result (Z * nat) :=
  tag ← getitem data p;
  let t := byte_val tag in
  if t =? 0x02 then
    value ← unpack_signed 4 data (p + 1); Ok (value, (p + 5)%nat)
  else if t =? 0x03 then
    value ← unpack_signed 8 data (p + 1); Ok (value, (p + 9)%nat)
  else if in_range 0x80 0xBF t then Ok (t - 0x80, (p + 1)%nat)
  else if in_range 0xC0 0xFF t then Ok (- (t - 0xC0), (p + 1)%nat)
  else _read_varint data p.

(** One turn of the scan loop from [cur]: [None] when a label is missing
    (the two [break]s of lines 532-540), else the coefficient and [nxt]. *)
Definition role_step (data : list byte) (cur : nat) : result (option (Role_object * nat)) :=
  match bytes_find data NAME_S cur with
  | None => Ok None
  | Some npos =>
    let lstart := (npos + length NAME_S)%nat in
    match bytes_find data VALUE_S lstart with
    | None => Ok None
    | Some vpos =>
      let name := _clean_label (slice data lstart vpos) in
      let p := (vpos + length VALUE_S)%nat in
      '(value, nxt) ← role_value data p;
      Ok (Some (mk_Role_object name value, nxt))
    end
  end.

Lemma find_in_bounds (sub l : list byte) (pos k : nat) :
  find_in sub l pos = Some k -> (pos <= k /\ k + length sub <= pos + length l)%nat.
Proof.
  revert pos. induction l as [|b l IH]; intros pos; cbn [find_in].
  - destruct sub as [|a sub]; cbn; [|discriminate]. intros [= <-]. lia.
  - destruct (starts_with sub (b :: l)) eqn:S.
    + intros [= <-]. split; [lia|].
      clear IH. revert S. generalize (b :: l). clear. intros l.
      revert l. induction sub as [|a sub IH]; intros l; cbn; [lia|].
      destruct l as [|b l]; [discriminate|]. intros H.
      apply andb_true_iff in H as [_ H]. apply IH in H. cbn. lia.
    + intros H. apply IH in H. cbn. lia.
Qed.

Lemma bytes_find_bounds (data sub : list byte) (start k : nat) :
  bytes_find data sub start = Some k ->
  (start <= k /\ k + length sub <= length data)%nat.
Proof.
  unfold bytes_find. destruct (start <=? length data)%nat eqn:L; [|discriminate].
  apply Nat.leb_le in L. intros H. apply find_in_bounds in H.
  rewrite length_drop in H. lia.
Qed.

Lemma varint_loop_advance (l : list byte) (res shift : Z) (p : nat) (v : Z) (p' : nat) :
  varint_loop l res shift p = Ok (v, p') -> (p < p')%nat.
Proof.
  revert res shift p. induction l as [|b l IH]; intros res shift p; cbn; [discriminate|].
  destruct (byte_val b <? 128).
  - intros [= _ <-]. lia.
  - intros H. apply IH in H. lia.
Qed.

Lemma role_value_advance (data : list byte) (p : nat) (v : Z) (nxt : nat) :
  role_value data p = Ok (v, nxt) -> (p < nxt /\ p < length data)%nat.
Proof.
  unfold role_value, getitem. destruct (data !! p) as [tag|] eqn:E; result_simpl;
    [|discriminate].
  apply lookup_lt_Some in E. intros H. split; [|exact E]. revert H.
  repeat match goal with
         | |- context [if ?c then _ else _] => destruct c
         end.
  - destruct (unpack_signed 4 data (p + 1)); result_simpl; [|discriminate].
    intros [= _ <-]. lia.
  - destruct (unpack_signed 8 data (p + 1)); result_simpl; [|discriminate].
    intros [= _ <-]. lia.
  - intros [= _ <-]. lia.
  - intros [= _ <-]. lia.
  - unfold _read_varint.
    destruct (varint_loop (drop p data) 0 0 p) as [[r q]|] eqn:V; result_simpl;
      [|discriminate].
    apply varint_loop_advance in V. intros [= _ <-]. exact V.
Qed.

Lemma role_step_advance (data : list byte) (cur : nat) (c : Role_object) (nxt : nat) :
  role_step data cur = Ok (Some (c, nxt)) -> (cur < nxt /\ cur < length data)%nat.
Proof.
  unfold role_step.
  destruct (bytes_find data NAME_S cur) as [npos|] eqn:F1; [|discriminate].
  destruct (bytes_find data VALUE_S _) as [vpos|] eqn:F2; [|discriminate].
  destruct (role_value data _) as [[v q]|] eqn:V; result_simpl; [|discriminate].
  intros [= _ <-].
  apply bytes_find_bounds in F1. apply bytes_find_bounds in F2.
  apply role_value_advance in V. lia.
Qed.

(** Lines 567-577: the coefficient joins the open block, which is sealed
    when it has 52 entries. *)
Definition collect (c : Role_object) (st : list (list Role_object) * list Role_object) :
  list (list Role_object) * list Role_object :=
  let coeffs := st.2 ++ [c] in
  if (length coeffs =? 52)%nat then (st.1 ++ [coeffs], []) else (st.1, coeffs).

(** The scan loop of lines 530-581, from [cur] with the sealed [blocks] and
    the open block [coeffs] in [st]. *)
Equations? role_loop (data : list byte) (body stop cur : nat)
  (st : list (list Role_object) * list Role_object) :
  result (list (list Role_object) * list Role_object)
  by wf (length data - cur)%nat lt :=
  role_loop data body stop cur st with inspect (role_step data cur) := {
    | exist _ (Raise e) _ := Raise e;
    | exist _ (Ok None) _ := Ok st;
    | exist _ (Ok (Some (c, nxt))) Hs :=
        if (stop <=? body + nxt)%nat then Ok (collect c st)
        else role_loop data body stop nxt (collect c st) }.
Proof. apply role_step_advance in Hs. lia. Qed.

(** The coefficients the scan meets from [cur], in order and with no block
    structure: what [role_loop] distributes over blocks. *)
Equations? role_scan (data : list byte) (body stop cur : nat) : result (list Role_object)
  by wf (length data - cur)%nat lt :=
  role_scan data body stop cur with inspect (role_step data cur) := {
    | exist _ (Raise e) _ := Raise e;
    | exist _ (Ok None) _ := Ok [];
    | exist _ (Ok (Some (c, nxt))) Hs :=
        if (stop <=? body + nxt)%nat then Ok [c]
        else cons c <$> role_scan data body stop nxt }.
Proof. apply role_step_advance in Hs. lia. Qed.

(** Every sealed block has 52 entries and the open block has fewer. *)
Definition blocks_ok (st : list (list Role_object) * list Role_object) : Prop :=
  Forall (fun b => length b = 52%nat) st.1 /\ (length st.2 < 52)%nat.

(** What [parse_role_data] prints about a trailing fragment:
    "trailing fragment with N coefficient(s) ignored". *)
Definition trailing_report (coeffs : list Role_object) : option nat :=
  match coeffs with
  | [] => None
  | _ => Some (length coeffs)
  end.

(** Lines 493-506: the start of the body of role_data, after the container
    marker of an object or the marker and count of an array. *)
Definition role_data_body (buf : list byte) (start : nat) : result nat :=
  let KEY := list_byte_of_string "role_data" in
  let klen := length KEY in
  if negb (bool_decide (slice buf start (start + klen) = KEY))
  then Raise (RuntimeError KeyTextNotFound)
  else
    marker ← getitem buf (start + klen);
    if existsb (Z.eqb (byte_val marker)) [0xC9; 0x99] then Ok (start + klen + 1)%nat
    else if byte_val marker =? 0x09 then Ok (start + klen + 5)%nat
    else Raise (RuntimeError UnexpectedContainer).

(** [parse_role_data]: the complete blocks, and the report on the trailing
    fragment when there is one.  ([verbose] only adds prints.) *)
Definition parse_role_data (buf : list byte) (start stop : nat) :
  result (list (list Role_object) * option nat) :=
  body ← role_data_body buf start;
  let data := slice buf body stop in
  '(blocks, coeffs) ← role_loop data body stop 0 ([], []);
  Ok (blocks, trailing_report coeffs).

(** *** role_lookup_data *)

Record Role_lookup_object : Type := { index : Z; role : Z }.

Definition INDEX_SENT : list byte := [x05] ++ list_byte_of_string "index".
Definition ROLE_SENT : list byte := [x04] ++ list_byte_of_string "role".

Definition _tiny_nibble (tag : Z) : Z := Z.shiftr (Z.land tag 0x7F) 4.

Definition _read_int (d : list byte) (p : nat) : result (Z * nat) :=
  tag ← getitem d p;
  let t := byte_val tag in
  if (0x80 <=? t) && (Z.land t 0x0F =? 0x02) then Ok (_tiny_nibble t, (p + 1)%nat)
  else if t =? 0x02 then v ← unpack_signed 4 d (p + 1); Ok (v, (p + 5)%nat)
  else if t =? 0x03 then v ← unpack_signed 8 d (p + 1); Ok (v, (p + 9)%nat)
  else if t =? 0x04 then v ← unpack_unsigned 4 d (p + 1); Ok (v, (p + 5)%nat)
  else if t =? 0x05 then v ← unpack_unsigned 8 d (p + 1); Ok (v, (p + 9)%nat)
  else if 0x80 <=? t then Ok (t - 0x80, (p + 1)%nat)
  else Raise (ValueError BadIntTag).

(** One turn of the scan loop from [cur]: [None] when no "index" key is
    left (the [break] of line 662), else the row and the offset after it. *)
Definition lookup_step (data : list byte) (cur : nat) :
  result (option (Role_lookup_object * nat)) :=
  match bytes_find data INDEX_SENT cur with
  | None => Ok None
  | Some idx_off =>
    '(index, pos_after_idx) ← _read_int data (idx_off + length INDEX_SENT);
    role_off ← bytes_index data ROLE_SENT pos_after_idx;
    '(role, pos_after_role) ← _read_int data (role_off + length ROLE_SENT);
    Ok (Some ({| index := index; role := role |}, pos_after_role))
  end.

Lemma _read_int_advance (d : list byte) (p : nat) (v : Z) (q : nat) :
  _read_int d p = Ok (v, q) -> (p < q /\ p < length d)%nat.
Proof.
  unfold _read_int, getitem. destruct (d !! p) as [tag|] eqn:E; result_simpl;
    [|discriminate].
  apply lookup_lt_Some in E. intros H. split; [|exact E]. revert H.
  repeat match goal with
         | |- context [if ?c then _ else _] => destruct c
         end;
  repeat match goal with
         | |- context [unpack_signed ?n ?d ?q] => destruct (unpack_signed n d q)
         | |- context [unpack_unsigned ?n ?d ?q] => destruct (unpack_unsigned n d q)
         end; result_simpl; try discriminate; intros [= _ <-]; lia.
Qed.

Lemma lookup_step_advance (data : list byte) (cur : nat) (r : Role_lookup_object)
  (nxt : nat) :
  lookup_step data cur = Ok (Some (r, nxt)) -> (cur < nxt /\ cur < length data)%nat.
Proof.
  unfold lookup_step, bytes_index.
  destruct (bytes_find data INDEX_SENT cur) as [idx_off|] eqn:F1; [|discriminate].
  destruct (_read_int data _) as [[i q]|] eqn:R1; result_simpl; [|discriminate].
  destruct (bytes_find data ROLE_SENT q) as [role_off|] eqn:F2; result_simpl;
    [|discriminate].
  destruct (_read_int data (_ + length ROLE_SENT)%nat) as [[ro q']|] eqn:R2;
    result_simpl; [|discriminate].
  intros [= _ <-].
  apply bytes_find_bounds in F1. apply bytes_find_bounds in F2.
  apply _read_int_advance in R1. apply _read_int_advance in R2. lia.
Qed.

(** [declared is not None and len(rows) >= declared] *)
Definition count_reached (declared : option nat) (rows : list Role_lookup_object) : bool :=
  match declared with
  | None => false
  | Some d => (d <=? length rows)%nat
  end.

(** The scan loop of lines 658-671. *)
Equations? lookup_loop (data : list byte) (declared : option nat) (cur : nat)
  (rows : list Role_lookup_object) : result (list Role_lookup_object)
  by wf (length data - cur)%nat lt :=
  lookup_loop data declared cur rows with inspect (lookup_step data cur) := {
    | exist _ (Raise e) _ := Raise e;
    | exist _ (Ok None) _ := Ok rows;
    | exist _ (Ok (Some (r, nxt))) Hs :=
        if count_reached declared (rows ++ [r]) then Ok (rows ++ [r])
        else lookup_loop data declared nxt (rows ++ [r]) }.
Proof. apply lookup_step_advance in Hs. lia. Qed.

(** [parse_role_lookup] ([verbose] only adds prints). *)
Definition parse_role_lookup (buf : list byte) (start stop : nat) :
  result (list Role_lookup_object) :=
  let KEY := list_byte_of_string "role_lookup_data" in
  if negb (bool_decide (slice buf start (start + length KEY) = KEY))
  then Raise (RuntimeError KeyTextNotFound)
  else
    ctag ← getitem buf (start + length KEY);
    '(declared, body) ←
      (if existsb (Z.eqb (byte_val ctag)) [0xC9; 0x99]
       then Ok (None, (start + length KEY + 1)%nat)
       else if byte_val ctag =? 0x09 then
         d ← unpack_unsigned 4 buf (start + length KEY + 1);
         Ok (Some (Z.to_nat d), (start + length KEY + 5)%nat)
       else Raise (RuntimeError UnexpectedContainer));
    let data := slice buf body stop in
    rows ← lookup_loop data declared 0 [];
    match declared with
    | Some d =>
      if negb (length rows =? d)%nat then Raise (RuntimeError (RowCount d (length rows)))
      else Ok rows
    | None => Ok rows
    end.

(** *** start_value and the integers of version *)

(** [parse_start_value] ([verbose] is not used). *)
Definition parse_start_value (buf : list byte) (anchor : nat) : result Z :=
  let KEY := list_byte_of_string "start_value" in
  let klen := length KEY in
  if negb (bool_decide (slice buf anchor (anchor + klen) = KEY))
  then Raise (RuntimeError KeyTextNotFound)
  else
    let pos := (anchor + klen)%nat in
    vmark ← getitem buf pos;
    let pos := (pos + 1)%nat in
    if byte_val vmark =? 0x02 then unpack_signed 4 buf pos
    else if byte_val vmark =? 0x03 then unpack_signed 8 buf pos
    else Raise (RuntimeError UnexpectedValueMarker).

(** [_decode_int] of [parse_version]. *)
Definition _decode_int (buf : list byte) (p : nat) : result (Z * nat) :=
  tag ← getitem buf p;
  let t := byte_val tag in
  if 0x80 <=? t then Ok (Z.land t 0x3F, (p + 1)%nat)
  else if t =? 0x02 then v ← unpack_signed 4 buf (p + 1); Ok (v, (p + 5)%nat)
  else if t =? 0x03 then v ← unpack_signed 8 buf (p + 1); Ok (v, (p + 9)%nat)
  else Raise (RuntimeError BadIntTag).

End Ratings.

(** ** The int32 of [src/weight_decoder.py] *)

Module Weights.

(** [_le_i32]: [struct.unpack("<i", b)[0]], for exactly four bytes. *)
Definition _le_i32 (b : list byte) : result Z :=
  if decide (length b = 4%nat) then Ok (to_signed 4 (from_bytes b))
  else Raise StructError.

End Weights.

(** ** Sample buffers *)

Module Sample.
Import Ratings.

(** A key header with an inline length byte, followed by the key text. *)
Definition key_header (k : string) : list byte :=
  byte_of_Z (Z.of_nat (String.length k)) :: list_byte_of_string k.

(** An int32 value: the marker 0x02 and four little-endian bytes. *)
Definition int32_value (v : Z) : list byte := x02 :: le_bytes 4 v.

(** A short string value whose marker announces [n] bytes. *)
Definition short_string (n : Z) (s : string) : list byte :=
  byte_of_Z (0x80 + n) :: list_byte_of_string s.

(** A well-formed row of expected_score_data. *)
Definition score_row (name : string) (neg pos : Z) : list byte :=
  key_header "name" ++ short_string (Z.of_nat (String.length name)) name ++
  key_header "negative_multiplier" ++ int32_value neg ++
  key_header "positive_multiplier" ++ int32_value pos.

(** A row whose name marker announces one byte more than the name has, so
    that the name token swallows the length byte (0x13) of the next key. *)
Definition stray_row (name : string) (neg pos : Z) : list byte :=
  key_header "name" ++ short_string (Z.of_nat (String.length name) + 1) name ++
  key_header "negative_multiplier" ++ int32_value neg ++
  key_header "positive_multiplier" ++ int32_value pos.

(** An expected_score_data section: the first of its eleven rows is a
    [stray_row], the others are well formed. *)
Definition stray_scores : list byte :=
  list_byte_of_string "expected_score_data" ++ [xc9] ++
  stray_row "ab" 1000 1200 ++
  concat (repeat (score_row "Neutral" 1000 1000) 10) ++
  [x00; x00; x00].

(** An occurrence of a physical-constraints field: key text, int32 marker
    and value. *)
Definition field (k : string) (v : Z) : list byte :=
  list_byte_of_string k ++ int32_value v.

(** A physical-constraints file in which only "walk_speed" is present, with
    the value 100 in the first copy (at 0xB08) and 200 in the second (at
    0x160B). *)
Definition two_copies : list byte :=
  repeat x00 0xB08 ++ field "walk_speed" 100 ++
  repeat x00 (0x160B - 0xB08 - 15) ++ field "walk_speed" 200 ++ [x00].

(** A row of role_lookup_data with int32 values. *)
Definition lookup_row (index role : Z) : list byte :=
  key_header "index" ++ int32_value index ++ key_header "role" ++ int32_value role.

(** A role_lookup_data array that declares no row and is followed, inside
    the scanned range, by one row. *)
Definition empty_array_then_row : list byte :=
  list_byte_of_string "role_lookup_data" ++ [x09] ++ le_bytes 4 0 ++ lookup_row 0 1.

(** A role_lookup_data array that declares two rows and is followed by
    three. *)
Definition two_declared_three_rows : list byte :=
  list_byte_of_string "role_lookup_data" ++ [x09] ++ le_bytes 4 2 ++
  lookup_row 0 1 ++ lookup_row 1 2 ++ lookup_row 2 4.

(** A role_lookup_data array that declares three rows and holds two. *)
Definition three_declared_two_rows : list byte :=
  list_byte_of_string "role_lookup_data" ++ [x09] ++ le_bytes 4 3 ++
  lookup_row 0 1 ++ lookup_row 1 2.

(** A coefficient of role_data: the name label "a" and the tiny value 5. *)
Definition coefficient : list byte :=
  NAME_S ++ [x81; x61] ++ VALUE_S ++ [x85].

(** A role_data section with 53 coefficients: one block and one left over. *)
Definition role_section : list byte :=
  list_byte_of_string "role_data" ++ [xc9] ++ concat (repeat coefficient 53).

End Sample.

(** ** Layout checks on the offset table *)

Module TableLayout.
Import Patcher.

(** No value window of [ips] meets the key text of an occurrence of [ke]. *)
Definition text_clearb (ips : list nat) (ke : string * offsets) : bool :=
  forallb (fun off =>
    forallb (fun p => (p + 4 <? off)%nat || (off + String.length ke.1 <=? p + 1)%nat) ips)
    (occurrences ke.2).

(** The operation can be carried out on [b]: its indicator byte exists, and
    the value fits when the indicator is the int32 marker. *)
Definition op_ok (b : list byte) (o : nat * Z) : Prop :=
  exists ind, b !! o.1 = Some ind /\ (ind = x02 -> 0 <= o.2 < 2 ^ 32).

(** The tracked keys of the table of the module whose text lies in the
    value window of another occurrence. *)
Definition overlapped (key : string) : bool :=
  existsb (String.eqb key)
    ["min_delay_for_shirt_tug_receive"; "moderate_jog_speed"]%string.

(** Pairwise distinct positions, pairwise distinct keys. *)
Fixpoint distinctb (l : list nat) : bool :=
  match l with
  | [] => true
  | x :: r => forallb (fun y => negb (x =? y)%nat) r && distinctb r
  end.

Fixpoint distinct_keysb (l : list string) : bool :=
  match l with
  | [] => true
  | x :: r => forallb (fun y => negb (String.eqb x y)) r && distinct_keysb r
  end.

End TableLayout.

(** ** The comparison and ordering helpers of [src/physics_decode_jsb.py] *)

Module PhysicsTools.
Import Patcher Physics.

(** [sorted] on strings that are pairwise distinct: ascending order. *)
Fixpoint insert_key (k : string) (l : list string) : list string :=
  match l with
  | [] => [k]
  | h :: t => if String.leb k h then k :: l else h :: insert_key k t
  end.

Definition sorted (l : list string) : list string := foldr insert_key [] l.

(** The default of the parameter [ignored] of [compare_jsb_copies]. *)
Definition default_ignored : list string :=
  ["version_major"; "version_minor"; "version_release"; "version_year"]%string.

(** The loop of lines 503-508 over the sorted union of the keys. *)
Fixpoint compare_loop (obj1 obj2 : gmap string Z) (ignored : list string)
  (keys : list string) (st : bool * list (string * option Z * option Z)) :
  bool * list (string * option Z * option Z) :=
  match keys with
  | [] => st
  | k :: rest =>
    let st :=
      if existsb (String.eqb k) ignored then st
      else if negb (bool_decide (obj1 !! k = obj2 !! k))
      then (false, st.2 ++ [(k, obj1 !! k, obj2 !! k)])
      else st in
    compare_loop obj1 obj2 ignored rest st
  end.

(** [compare_jsb_copies] on the bytes of the JSB file: the boolean returned
    and the "[DIFF]" lines printed, each with its key and the two values
    (the closing line printed after them says what the boolean says). *)
Definition compare_jsb_copies (jsb : list byte) (ignored : option (list string)) :
  result (bool * list (string * option Z * option Z)) :=
  let ignored := match ignored with None => default_ignored | Some s => s end in
  '(obj1, obj2) ← decode_physical_constraints jsb;
  Ok (compare_loop obj1 obj2 ignored
        (sorted (elements (dom obj1 ∪ dom obj2))) (true, [])).

(** The value a key has after one turn of the loop of
    [decode_physical_constraints]: what [_grab] read, or the old entry. *)
Definition stored (r : option Z) (old : option Z) : option Z :=
  match r with Some v => Some v | None => old end.

End PhysicsTools.

(** * Properties *)

(** ** Bytes and byte strings *)

Module PyFacts.

Lemma byte_val_range (b : byte) : 0 <= byte_val b < 256.
Proof.
  unfold byte_val. pose proof (Byte.to_N_bounded b). lia.
Qed.

Lemma byte_val_inj (a b : byte) : byte_val a = byte_val b -> a = b.
Proof.
  unfold byte_val. intros H.
  apply N2Z.inj in H.
  pose proof (Byte.of_to_N a) as Ha. pose proof (Byte.of_to_N b) as Hb.
  rewrite H in Ha. congruence.
Qed.

Lemma byte_val_is_2 (b : byte) : (byte_val b =? 2) = true <-> b = x02.
Proof.
  rewrite Z.eqb_eq. split.
  - intros H. apply byte_val_inj. exact H.
  - intros ->. reflexivity.
Qed.

Lemma byte_of_Z_val (z : Z) : byte_val (byte_of_Z z) = z mod 256.
Proof.
  unfold byte_of_Z, byte_val.
  pose proof (Z.mod_pos_bound z 256 ltac:(lia)) as Hr.
  destruct (Byte.of_N (Z.to_N (z mod 256))) as [b|] eqn:E.
  - apply Byte.to_of_N in E. rewrite E. lia.
  - exfalso. apply Byte.of_N_None_iff in E. lia.
Qed.

Lemma length_le_bytes (n : nat) (v : Z) : length (le_bytes n v) = n.
Proof.
  revert v. induction n as [|n IH]; intros v; simpl; [reflexivity|].
  now rewrite IH.
Qed.

Lemma to_bytes_length (n : nat) (v : Z) (bs : list byte) :
  to_bytes n v = Some bs -> length bs = n.
Proof.
  unfold to_bytes. destruct (_ && _); [|discriminate].
  intros [= <-]. apply length_le_bytes.
Qed.

Lemma to_bytes_Some (n : nat) (v : Z) :
  0 <= v < 256 ^ Z.of_nat n -> to_bytes n v = Some (le_bytes n v).
Proof.
  intros [H1 H2]. unfold to_bytes.
  apply Z.leb_le in H1. apply Z.ltb_lt in H2. now rewrite H1, H2.
Qed.

Lemma lookup_le_bytes (n : nat) (v : Z) (j : nat) :
  (j < n)%nat -> le_bytes n v !! j = Some (byte_of_Z (v / 256 ^ Z.of_nat j)).
Proof.
  revert v j. induction n as [|n IH]; intros v j Hj; [lia|].
  destruct j as [|j]; cbn [le_bytes].
  - cbn [lookup list_lookup]. change (Z.of_nat 0) with 0. now rewrite Z.pow_0_r, Z.div_1_r.
  - change ((byte_of_Z v :: le_bytes n (v / 256)) !! S j) with (le_bytes n (v / 256) !! j).
    rewrite IH by lia. do 2 f_equal.
    rewrite Nat2Z.inj_succ, Z.pow_succ_r by lia.
    rewrite Z.div_div by lia. reflexivity.
Qed.

(** Reading back the bytes of [le_bytes] gives the value modulo 256^n. *)
Lemma from_bytes_le_bytes (n : nat) (v : Z) :
  from_bytes (le_bytes n v) = v mod 256 ^ Z.of_nat n.
Proof.
  revert v. induction n as [|n IH]; intros v.
  - simpl. now rewrite Z.mod_1_r.
  - cbn [le_bytes from_bytes]. rewrite IH, byte_of_Z_val.
    rewrite Nat2Z.inj_succ, Z.pow_succ_r by lia.
    rewrite Z.rem_mul_r by lia. reflexivity.
Qed.

(** Pointwise reading of a slice assignment whose slice starts inside the
    buffer (or at its end): inside the new bytes, else the old buffer. *)
Lemma lookup_slice_assign (b v : list byte) (lo x : nat) :
  (lo <= length b)%nat ->
  slice_assign b lo (lo + length v) v !! x =
    if decide (lo <= x < lo + length v)%nat then v !! (x - lo)%nat else b !! x.
Proof.
  intros Hlo. unfold slice_assign.
  assert (Hlen : length (take lo b) = lo) by (rewrite length_take; lia).
  destruct (decide (x < lo)%nat) as [Hx|Hx].
  - rewrite lookup_app_l by lia. rewrite lookup_take.
    repeat case_decide; try lia. reflexivity.
  - rewrite lookup_app_r by lia. rewrite Hlen.
    destruct (decide (x - lo < length v)%nat) as [Hv|Hv].
    + rewrite lookup_app_l by lia. case_decide; [reflexivity|lia].
    + rewrite lookup_app_r by lia. rewrite lookup_drop.
      case_decide; [lia|]. f_equal. lia.
Qed.

Lemma length_slice_assign (b v : list byte) (lo : nat) :
  (lo <= length b)%nat ->
  length (slice_assign b lo (lo + length v) v) = Nat.max (length b) (lo + length v).
Proof.
  intros Hlo. unfold slice_assign.
  rewrite !length_app, length_take, length_drop. lia.
Qed.

End PyFacts.
Import PyFacts.

(** ** The patcher *)

Module PatcherSpec.
Import Patcher.

(** *** One write operation *)

Lemma write_op_inv (p : nat) (v : Z) (b b' : list byte) :
  write_op (p, v) b = Ok b' ->
  (exists ind, b !! p = Some ind /\ ind <> x02 /\ b' = b) \/
  (exists vb, b !! p = Some x02 /\ to_bytes 4 v = Some vb /\
              b' = slice_assign b (p + 1) (p + 1 + 4) vb).
Proof.
  unfold write_op, getitem. cbn [fst snd].
  destruct (b !! p) as [ind|] eqn:E; cbn; [|discriminate].
  destruct (byte_val ind =? 2) eqn:T; cbn.
  - apply byte_val_is_2 in T. subst ind.
    destruct (to_bytes 4 v) as [vb|]; [|discriminate].
    intros [= <-]. right. eauto.
  - intros [= <-]. left. exists ind.
    split; [reflexivity|]. split; [|reflexivity].
    intros ->. discriminate.
Qed.

Lemma write_op_lookup (p : nat) (v : Z) (b b' : list byte) (x : nat) :
  write_op (p, v) b = Ok b' ->
  b' !! x = b !! x \/ (b !! p = Some x02 /\ in_window p x).
Proof.
  intros H. apply write_op_inv in H as [(ind & _ & _ & ->)|(vb & Hp & Hv & ->)].
  - now left.
  - apply to_bytes_length in Hv.
    pose proof (lookup_lt_Some _ _ _ Hp) as Hlt.
    replace (p + 1 + 4)%nat with (p + 1 + length vb)%nat by lia.
    rewrite lookup_slice_assign by lia.
    case_decide; [right|now left].
    split; [exact Hp|unfold in_window; lia].
Qed.

Lemma write_op_frame (p : nat) (v : Z) (b b' : list byte) (x : nat) :
  write_op (p, v) b = Ok b' -> ~ in_window p x -> b' !! x = b !! x.
Proof.
  intros H Hx. destruct (write_op_lookup _ _ _ _ x H) as [E|[_ W]]; tauto.
Qed.

(** An active indicator is followed, after the write, by the bytes of the
    value, and the buffer reaches at least to the end of the window. *)
Lemma write_op_window (p : nat) (v : Z) (b b' : list byte) :
  write_op (p, v) b = Ok b' -> b !! p = Some x02 ->
  to_bytes 4 v = Some (le_bytes 4 v) /\
  length b' = Nat.max (length b) (p + 5) /\
  forall j, (j < 4)%nat -> b' !! (p + 1 + j)%nat = le_bytes 4 v !! j.
Proof.
  intros H Hp. apply write_op_inv in H as [(ind & Hi & Hne & _)|(vb & _ & Hv & ->)].
  - congruence.
  - pose proof (lookup_lt_Some _ _ _ Hp) as Hlt.
    assert (vb = le_bytes 4 v) as ->.
    { unfold to_bytes in Hv. destruct (_ && _); congruence. }
    split; [exact Hv|]. split.
    + change (p + 1 + 4)%nat with (p + 1 + length (le_bytes 4 v))%nat.
      rewrite length_slice_assign by lia. rewrite length_le_bytes. lia.
    + intros j Hj.
      change (p + 1 + 4)%nat with (p + 1 + length (le_bytes 4 v))%nat.
      rewrite lookup_slice_assign by lia. rewrite length_le_bytes.
      case_decide; [|lia]. f_equal. lia.
Qed.

(** *** Runs of operations over stable indicator positions *)

Section Stable.

Variable ips : list nat.
Hypothesis ips_stable : stable ips.

Lemma stable_indicator (p q : nat) (v : Z) (b b' : list byte) :
  In p ips -> In q ips -> write_op (p, v) b = Ok b' -> b' !! q = b !! q.
Proof.
  intros Hp Hq H. eapply write_op_frame; [exact H|]. now apply ips_stable.
Qed.

Lemma active_cons_inactive (o : nat * Z) (ops : list (nat * Z)) (b : list byte) (x : nat) :
  b !! o.1 <> Some x02 -> active (o :: ops) b x -> active ops b x.
Proof.
  intros Hne (o' & [<-|Hin] & Hb & Hw); [contradiction|].
  exists o'. auto.
Qed.

Lemma active_after_write (o : nat * Z) (ops : list (nat * Z)) (b b' : list byte) (x : nat) :
  In o.1 ips -> Forall (fun o' => In o'.1 ips) ops ->
  write_op o b = Ok b' ->
  active ops b x <-> active ops b' x.
Proof.
  intros Ho Hops H. destruct o as [p v]. cbn [fst] in Ho.
  rewrite List.Forall_forall in Hops.
  split; intros (o' & Hin & Hb & Hw); exists o';
    (split; [exact Hin|split; [|exact Hw]]).
  - rewrite (stable_indicator p o'.1 v b b'); auto.
  - rewrite <- (stable_indicator p o'.1 v b b'); auto.
Qed.

(** Frame: a run changes the buffer inside active windows only. *)
Lemma run_ops_frame (ops : list (nat * Z)) (b b1 : list byte) (x : nat) :
  Forall (fun o => In o.1 ips) ops ->
  run_ops ops b = Ok b1 ->
  b1 !! x = b !! x \/ active ops b x.
Proof.
  revert b. induction ops as [|o ops IH]; intros b Hops H.
  - cbn in H. injection H as <-. now left.
  - apply Forall_cons_1 in Hops as [Ho Hops].
    cbn [run_ops] in H.
    destruct (write_op o b) as [b'|e] eqn:W; cbn in H; [|discriminate].
    destruct (IH b' Hops H) as [E|A].
    + rewrite E. destruct o as [p v].
      destruct (write_op_lookup _ _ _ _ x W) as [E'|[Hp Hw]]; [now left|].
      right. exists (p, v). cbn. auto.
    + right. apply (active_after_write o ops b b' x Ho Hops W) in A.
      destruct A as (o' & Hin & Hb & Hw). exists o'. cbn. auto.
Qed.

(** The outcome of a run does not depend on what the active windows held. *)
Lemma run_ops_insensitive (ops : list (nat * Z)) (b c : list byte) :
  Forall (fun o => In o.1 ips) ops ->
  (forall x, c !! x = b !! x \/ active ops b x) ->
  run_ops ops c = run_ops ops b.
Proof.
  revert b c. induction ops as [|[p v] ops IH]; intros b c Hops Hbc.
  - cbn. f_equal. apply list_eq. intros i.
    destruct (Hbc i) as [E|(o & [] & _)]. exact E.
  - apply Forall_cons_1 in Hops as [Hp Hops]. cbn [fst] in Hp.
    assert (Hind : c !! p = b !! p).
    { destruct (Hbc p) as [E|(o & Hin & _ & Hw)]; [exact E|].
      exfalso. apply (ips_stable o.1 p); auto.
      destruct Hin as [<-|Hin]; [exact Hp|].
      rewrite List.Forall_forall in Hops. now apply Hops. }
    cbn [run_ops].
    destruct (write_op (p, v) b) as [b'|e] eqn:Wb.
    + destruct (write_op_inv _ _ _ _ Wb) as [(ind & Hi & Hne & ->)|(vb & Hi & Hv & ->)].
      * assert (Wc : write_op (p, v) c = Ok c).
        { unfold write_op, getitem. cbn [fst snd]. rewrite Hind, Hi. cbn.
          destruct (byte_val ind =? 2) eqn:T; [|reflexivity].
          apply byte_val_is_2 in T. contradiction. }
        rewrite Wc. cbn. apply IH; [exact Hops|].
        intros x. destruct (Hbc x) as [E|A]; [now left|right].
        apply active_cons_inactive in A; [exact A|]. cbn. congruence.
      * assert (Wc : write_op (p, v) c = Ok (slice_assign c (p + 1) (p + 1 + 4) vb)).
        { unfold write_op, getitem. cbn [fst snd]. rewrite Hind, Hi. cbn.
          now rewrite Hv. }
        rewrite Wc. cbn. apply IH; [exact Hops|].
        intros x.
        pose proof (to_bytes_length _ _ _ Hv) as Hl.
        pose proof (lookup_lt_Some _ _ _ Hi) as Hlb.
        rewrite <- Hind in Hi. pose proof (lookup_lt_Some _ _ _ Hi) as Hlc.
        replace (p + 1 + 4)%nat with (p + 1 + length vb)%nat by lia.
        rewrite !lookup_slice_assign by lia.
        case_decide as Hx; [now left|].
        destruct (Hbc x) as [E|(o & [<-|Hin] & Hb & Hw)]; [now left| |].
        -- exfalso. unfold in_window in Hw. cbn in Hw. lia.
        -- right. exists o. split; [exact Hin|]. split; [|exact Hw].
           rewrite lookup_slice_assign by lia.
           case_decide as Hq; [|exact Hb].
           exfalso. apply (ips_stable p o.1).
           ++ exact Hp.
           ++ rewrite List.Forall_forall in Hops. now apply Hops.
           ++ unfold in_window. lia.
    + assert (Wc : write_op (p, v) c = Raise e).
      { unfold write_op, getitem in *. cbn [fst snd] in *. rewrite Hind.
        destruct (b !! p) as [ind|]; cbn in *; [|exact Wb].
        destruct (negb (byte_val ind =? 2)); [discriminate|].
        destruct (to_bytes 4 v); [discriminate|exact Wb]. }
      now rewrite Wc.
Qed.

(** Running the same operations on the outcome of a run changes nothing. *)
Lemma run_ops_idempotent (ops : list (nat * Z)) (b b1 : list byte) :
  Forall (fun o => In o.1 ips) ops ->
  run_ops ops b = Ok b1 -> run_ops ops b1 = Ok b1.
Proof.
  intros Hops H. rewrite <- H. apply run_ops_insensitive; [exact Hops|].
  intros x. now apply run_ops_frame.
Qed.

End Stable.

(** *** From the loops of the source to runs of operations *)

Lemma run_ops_app (l1 l2 : list (nat * Z)) (b : list byte) :
  run_ops (l1 ++ l2) b = run_ops l1 b ≫= run_ops l2.
Proof.
  revert b. induction l1 as [|o l1 IH]; intros b; [reflexivity|].
  cbn [app run_ops]. destruct (write_op o b) as [b'|e]; cbn; [apply IH|reflexivity].
Qed.

Lemma patch_occurrence_buf (key : string) (val : Z) (off : nat) (b : list byte)
  (out : list message) :
  fst <$> patch_occurrence key val off (b, out) =
  write_op ((off + String.length key)%nat, val) b.
Proof.
  unfold patch_occurrence, write_op, getitem. cbn [fst snd].
  destruct (b !! (off + String.length key)%nat) as [ind|]; cbn; [|reflexivity].
  destruct (negb (byte_val ind =? 2)); cbn; [reflexivity|].
  destruct (to_bytes 4 val); reflexivity.
Qed.

Lemma patch_locs_buf (key : string) (val : Z) (offs : list nat) (st : pstate) :
  fst <$> patch_locs key val offs st =
  run_ops (map (fun off => ((off + String.length key)%nat, val)) offs) st.1.
Proof.
  revert st. induction offs as [|off offs IH]; intros [b out]; [reflexivity|].
  cbn [patch_locs map run_ops fst].
  rewrite <- (patch_occurrence_buf key val off b out).
  destruct (patch_occurrence key val off (b, out)) as [st'|e]; cbn; [apply IH|reflexivity].
Qed.

Lemma patch_key_buf (table : offset_table) (key : string) (val : Z) (st : pstate) :
  fst <$> patch_key table key val st = run_ops (key_ops table key val) st.1.
Proof.
  unfold patch_key, key_ops. destruct (is_ignored key); [reflexivity|].
  destruct (table_get table key) as [e|]; [apply patch_locs_buf|reflexivity].
Qed.

Lemma patch_loop_buf (table : offset_table) (updates : list (string * Z)) (st : pstate) :
  fst <$> patch_loop table updates st = run_ops (flat_ops table updates) st.1.
Proof.
  revert st. induction updates as [|[key val] updates IH]; intros st; [reflexivity|].
  cbn [patch_loop flat_ops flat_map fst snd].
  rewrite run_ops_app, <- patch_key_buf.
  destruct (patch_key table key val st) as [st'|e]; cbn; [apply IH|reflexivity].
Qed.

Lemma patch_buf (table : offset_table) (jsb : list byte) (updates : list (string * Z)) :
  fst <$> patch table jsb updates = run_ops (flat_ops table updates) jsb.
Proof. apply patch_loop_buf. Qed.

Lemma table_get_In (table : offset_table) (key : string) (e : offsets) :
  table_get table key = Some e -> In (key, e) table.
Proof.
  induction table as [|[k e'] table IH]; cbn; [discriminate|].
  destruct (String.eqb key k) eqn:E.
  - apply String.eqb_eq in E. intros [= ->]. left. now subst.
  - intros H. right. now apply IH.
Qed.

Lemma key_ops_editable (table : offset_table) (key : string) (val : Z) :
  Forall (fun o => In o.1 (editable_ips table)) (key_ops table key val).
Proof.
  unfold key_ops. destruct (is_ignored key) eqn:Hi; [constructor|].
  destruct (table_get table key) as [e|] eqn:G; [|constructor].
  apply table_get_In in G.
  apply List.Forall_forall. intros o Ho.
  apply in_map_iff in Ho as (off & <- & Hoff). cbn [fst].
  unfold editable_ips. apply in_flat_map. exists (key, e). split.
  - apply filter_In. split; [exact G|]. cbn [fst]. now rewrite Hi.
  - unfold entry_ips. cbn [fst snd]. apply in_map_iff. eauto.
Qed.

Lemma flat_ops_editable (table : offset_table) (updates : list (string * Z)) :
  Forall (fun o => In o.1 (editable_ips table)) (flat_ops table updates).
Proof.
  induction updates as [|[key val] updates IH]; [constructor|].
  cbn [flat_ops flat_map fst snd]. apply Forall_app. split; [|exact IH].
  apply key_ops_editable.
Qed.

Lemma editable_in_table (table : offset_table) (p : nat) :
  In p (editable_ips table) -> In p (table_ips table).
Proof.
  unfold editable_ips, table_ips. rewrite !in_flat_map.
  intros (ke & Hke & Hp). exists ke. split; [|exact Hp].
  now apply filter_In in Hke.
Qed.

Lemma flat_ops_in_table (table : offset_table) (updates : list (string * Z)) :
  Forall (fun o => In o.1 (table_ips table)) (flat_ops table updates).
Proof.
  eapply Forall_impl; [apply flat_ops_editable|].
  intros o. apply editable_in_table.
Qed.

Lemma in_windowb_spec (p x : nat) : in_windowb p x = true <-> in_window p x.
Proof.
  unfold in_windowb, in_window.
  rewrite andb_true_iff, Nat.ltb_lt, Nat.leb_le. tauto.
Qed.

Lemma stableb_sound (ips : list nat) : stableb ips = true -> stable ips.
Proof.
  unfold stableb, stable. intros H p q Hp Hq W.
  rewrite forallb_forall in H. specialize (H p Hp).
  rewrite forallb_forall in H. specialize (H q Hq).
  apply in_windowb_spec in W. rewrite W in H. discriminate.
Qed.

Lemma table_stable : stable (table_ips physical_constraints_offsets).
Proof. apply stableb_sound. vm_compute. reflexivity. Qed.

(** Idempotence of the patch for every table with stable indicator positions. *)
Lemma idempotent_on_stable_table (table : offset_table) (jsb : list byte)
  (updates : list (string * Z)) :
  stable (table_ips table) ->
  fst <$> (patch table jsb updates ≫= fun st => patch table st.1 updates) =
  fst <$> patch table jsb updates.
Proof.
  intros Hst.
  pose proof (patch_buf table jsb updates) as H1.
  destruct (patch table jsb updates) as [[b1 out1]|e] eqn:P; cbn in *; [|reflexivity].
  rewrite (patch_buf table b1 updates). f_equal.
  symmetry in H1.
  rewrite (run_ops_idempotent _ Hst _ _ _ (flat_ops_in_table table updates) H1).
  reflexivity.
Qed.

(** Stability is what idempotence rests on: with a table in which one
    indicator sits inside the window of another, a second pass can write
    where the first one did not. *)
Example patch_not_idempotent_unstable_table :
  let table := [("b", {| loc := Some 2%nat; loc2 := None |});
                ("a", {| loc := Some 0%nat; loc2 := None |})]%string in
  let updates := [("b", 0x01010101); ("a", 0x0200)]%string in
  let jsb := [x00; x02; x00; x00; x00; x00; x00; x00; x00] in
  fst <$> patch table jsb updates = Ok [x00; x02; x00; x02; x00; x00; x00; x00; x00] /\
  fst <$> (patch table jsb updates ≫= fun st => patch table st.1 updates)
    = Ok [x00; x02; x00; x02; x00; x00; x01; x01; x00].
Proof. split; reflexivity. Qed.

(** *** Length *)

Lemma write_op_length (p : nat) (v : Z) (b b' : list byte) :
  write_op (p, v) b = Ok b' ->
  length b' = length b \/ (b !! p = Some x02 /\ length b' = Nat.max (length b) (p + 5)).
Proof.
  intros H. destruct (write_op_inv _ _ _ _ H) as [(ind & _ & _ & ->)|(vb & Hp & _ & _)].
  - now left.
  - right. split; [exact Hp|]. now apply (write_op_window p v b b').
Qed.

Lemma run_ops_length (ops : list (nat * Z)) (b b1 : list byte) :
  Forall (fun o => (o.1 < length b -> o.1 + 5 <= length b)%nat) ops ->
  run_ops ops b = Ok b1 -> length b1 = length b.
Proof.
  revert b. induction ops as [|[p v] ops IH]; intros b Hops H.
  - cbn in H. now injection H as <-.
  - apply Forall_cons_1 in Hops as [Hp Hops]. cbn [fst] in Hp.
    cbn [run_ops] in H.
    destruct (write_op (p, v) b) as [b'|e] eqn:W; cbn in H; [|discriminate].
    assert (Hl : length b' = length b).
    { destruct (write_op_length _ _ _ _ W) as [E|[Hi E]]; [exact E|].
      apply lookup_lt_Some in Hi. lia. }
    rewrite <- Hl. apply IH; [|exact H].
    rewrite Hl. exact Hops.
Qed.

(** When every value window of the table that starts inside the buffer also
    ends inside it, the patch keeps the length of the buffer. *)
Lemma patch_length_in_range (table : offset_table) (jsb jsb' : list byte)
  (updates : list (string * Z)) (out : list message) :
  Forall (fun p => (p < length jsb -> p + 5 <= length jsb)%nat) (editable_ips table) ->
  patch table jsb updates = Ok (jsb', out) ->
  length jsb' = length jsb.
Proof.
  intros Hr P. pose proof (patch_buf table jsb updates) as H.
  rewrite P in H. cbn in H. symmetry in H.
  apply (run_ops_length _ _ _) in H; [exact H|].
  rewrite List.Forall_forall in Hr.
  eapply Forall_impl; [apply flat_ops_editable|].
  intros o Ho. now apply Hr.
Qed.

(** *** Messages *)

Lemma patch_locs_messages (key : string) (val : Z) (offs : list nat) (st st' : pstate) :
  is_ignored key = false ->
  Forall not_about_ignored st.2 ->
  patch_locs key val offs st = Ok st' -> Forall not_about_ignored st'.2.
Proof.
  intros Hk. revert st. induction offs as [|off offs IH]; intros [b out] Hout H.
  - cbn in H. now injection H as <-.
  - cbn [patch_locs] in H.
    destruct (patch_occurrence key val off (b, out)) as [[b' out']|e] eqn:E;
      cbn in H; [|discriminate].
    apply (IH (b', out')); [|exact H]. cbn [snd] in *.
    revert E. unfold patch_occurrence, getitem.
    destruct (b !! (off + String.length key)%nat) as [ind|]; cbn; [|discriminate].
    destruct (negb (byte_val ind =? 2)).
    + intros [= <- <-]. apply Forall_app. split; [exact Hout|].
      constructor; [exact Hk|constructor].
    + destruct (to_bytes 4 val); [|discriminate]. now intros [= <- <-].
Qed.

Lemma patch_loop_messages (table : offset_table) (updates : list (string * Z))
  (st st' : pstate) :
  Forall not_about_ignored st.2 ->
  patch_loop table updates st = Ok st' -> Forall not_about_ignored st'.2.
Proof.
  revert st. induction updates as [|[key val] updates IH]; intros st Hout H.
  - cbn in H. now injection H as <-.
  - cbn [patch_loop] in H.
    destruct (patch_key table key val st) as [st1|e] eqn:E; cbn in H; [|discriminate].
    apply (IH st1); [|exact H].
    revert E. unfold patch_key. destruct (is_ignored key) eqn:Hk.
    + now intros [= <-].
    + destruct (table_get table key) as [e|].
      * now apply patch_locs_messages.
      * intros [= <-]. cbn [snd]. apply Forall_app. split; [exact Hout|].
        constructor; [exact Hk|constructor].
Qed.

(** Edits of ignored keys can be dropped from the updates: same outcome. *)
Lemma patch_loop_drop_ignored (table : offset_table) (updates : list (string * Z))
  (st : pstate) :
  patch_loop table updates st =
  patch_loop table (List.filter (fun kv => negb (is_ignored kv.1)) updates) st.
Proof.
  revert st. induction updates as [|[key val] updates IH]; intros st; [reflexivity|].
  cbn [patch_loop List.filter fst]. unfold patch_key at 1.
  destruct (is_ignored key) eqn:Hk; cbn [negb].
  - cbn. apply IH.
  - cbn [patch_loop]. unfold patch_key. rewrite Hk.
    destruct (table_get table key) as [e|].
    + destruct (patch_locs key val (occurrences e) st); cbn; [apply IH|reflexivity].
    + cbn. apply IH.
Qed.

Lemma clear_ofb_sound (ips : list nat) (ke : string * offsets) (off p x : nat) :
  clear_ofb ips ke = true -> In off (occurrences ke.2) -> In p ips ->
  in_window p x -> in_occurrence ke.1 off x -> False.
Proof.
  unfold clear_ofb, in_window, in_occurrence. intros H Hoff Hp Hw Ho.
  rewrite forallb_forall in H. specialize (H off Hoff).
  rewrite forallb_forall in H. specialize (H p Hp).
  apply orb_true_iff in H as [H|H].
  - apply Nat.ltb_lt in H. lia.
  - apply Nat.leb_le in H. lia.
Qed.

Lemma version_occurrences_clear :
  forallb (clear_ofb (editable_ips physical_constraints_offsets))
    (List.filter (fun ke => is_ignored ke.1) physical_constraints_offsets) = true.
Proof. vm_compute. reflexivity. Qed.

Lemma version_fields_ignored (key : string) :
  In key version_fields -> is_ignored key = true.
Proof.
  intros [<-|[<-|[<-|[<-|[]]]]]; reflexivity.
Qed.

(** *** The treatment of one occurrence *)


(** The two outcomes of the body of the innermost loop at an occurrence
    whose indicator position lies inside the buffer. *)
Lemma patch_occurrence_skips (key : string) (val : Z) (off : nat)
  (jsb : list byte) (out : list message) (ind : byte) :
  jsb !! (off + String.length key)%nat = Some ind -> ind <> x02 ->
  patch_occurrence key val off (jsb, out) = Ok (jsb, out ++ [IndicatorWarning key ind]).
Proof.
  intros Hind Hne. unfold patch_occurrence, getitem. rewrite Hind. cbn.
  destruct (byte_val ind =? 2) eqn:T; [|reflexivity].
  apply byte_val_is_2 in T. contradiction.
Qed.

Lemma patch_occurrence_writes (key : string) (val : Z) (off : nat)
  (jsb : list byte) (out : list message) :
  let indicator_pos := (off + String.length key)%nat in
  jsb !! indicator_pos = Some x02 -> 0 <= val < 2 ^ 32 ->
  (indicator_pos + 5 <= length jsb)%nat ->
  exists jsb',
    patch_occurrence key val off (jsb, out) = Ok (jsb', out) /\
    length jsb' = length jsb /\
    (forall j, (j < 4)%nat ->
       jsb' !! (indicator_pos + 1 + j)%nat =
         Some (byte_of_Z (val / 256 ^ Z.of_nat j))) /\
    (forall x, ~ in_window indicator_pos x -> jsb' !! x = jsb !! x).
Proof.
  intros ip Hind Hval Hlen.
  assert (Hv : to_bytes 4 val = Some (le_bytes 4 val)).
  { apply to_bytes_Some. change (256 ^ Z.of_nat 4) with (2 ^ 32). exact Hval. }
  assert (W : write_op (ip, val) jsb =
              Ok (slice_assign jsb (ip + 1) (ip + 1 + 4) (le_bytes 4 val))).
  { unfold write_op, getitem. cbn [fst snd]. rewrite Hind. cbn. now rewrite Hv. }
  exists (slice_assign jsb (ip + 1) (ip + 1 + 4) (le_bytes 4 val)).
  split; [|split; [|split]].
  - unfold patch_occurrence, getitem. fold ip. rewrite Hind. cbn. now rewrite Hv.
  - destruct (write_op_window _ _ _ _ W Hind) as (_ & Hl & _). rewrite Hl. lia.
  - intros j Hj. destruct (write_op_window _ _ _ _ W Hind) as (_ & _ & Hw).
    rewrite Hw by exact Hj. now apply lookup_le_bytes.
  - intros x Hx. now apply (write_op_frame ip val).
Qed.

(** The nested loops of the patch are the run of its visits. *)
Lemma run_visits_app (pre post : list visit) (st : pstate) :
  run_visits (pre ++ post) st = run_visits pre st ≫= run_visits post.
Proof.
  revert st. induction pre as [|v pre IH]; intros st; [reflexivity|].
  cbn [app run_visits]. destruct (treat v st) as [st'|e]; result_simpl;
    [apply IH|reflexivity].
Qed.

Lemma patch_locs_visits (key : string) (val : Z) (offs : list nat) (st : pstate) :
  patch_locs key val offs st = run_visits (map (Occurrence key val) offs) st.
Proof.
  revert st. induction offs as [|off offs IH]; intros st; [reflexivity|].
  cbn [patch_locs map run_visits treat].
  destruct (patch_occurrence key val off st) as [st'|e]; result_simpl;
    [apply IH|reflexivity].
Qed.

Lemma patch_key_visits (table : offset_table) (key : string) (val : Z) (st : pstate) :
  patch_key table key val st = run_visits (key_visits table key val) st.
Proof.
  unfold patch_key, key_visits. destruct (is_ignored key); [reflexivity|].
  destruct (table_get table key) as [e|]; [apply patch_locs_visits|reflexivity].
Qed.

Lemma patch_loop_visits (table : offset_table) (updates : list (string * Z))
  (st : pstate) :
  patch_loop table updates st = run_visits (visits table updates) st.
Proof.
  revert st. induction updates as [|[key val] updates IH]; intros st; [reflexivity|].
  cbn [patch_loop visits flat_map fst snd].
  rewrite run_visits_app, <- patch_key_visits.
  destruct (patch_key table key val st) as [st'|e]; result_simpl;
    [apply IH|reflexivity].
Qed.

Lemma in_key_visits (table : offset_table) (key : string) (val : Z)
  (key' : string) (val' : Z) (off : nat) :
  In (Occurrence key' val' off) (key_visits table key val) <->
  key' = key /\ val' = val /\ is_ignored key = false /\
  exists e, table_get table key = Some e /\ In off (occurrences e).
Proof.
  unfold key_visits. destruct (is_ignored key).
  - split; [intros []|intros (_ & _ & H & _); discriminate].
  - destruct (table_get table key) as [e|].
    + rewrite in_map_iff. split.
      * intros (o & [= -> -> ->] & Ho). repeat split. now exists e.
      * intros (-> & -> & _ & e' & [= <-] & Ho). now exists off.
    + split.
      * intros [H|[]]. discriminate.
      * intros (_ & _ & _ & e & H & _). discriminate.
Qed.

Lemma in_visits (table : offset_table) (updates : list (string * Z))
  (key : string) (val : Z) (off : nat) :
  In (Occurrence key val off) (visits table updates) <->
  In (key, val) updates /\ is_ignored key = false /\
  exists e, table_get table key = Some e /\ In off (occurrences e).
Proof.
  unfold visits. rewrite in_flat_map. split.
  - intros ([k v] & Hin & Hv). cbn [fst snd] in Hv.
    apply in_key_visits in Hv as (-> & -> & Hk & He). auto.
  - intros (Hin & Hk & He). exists (key, val). split; [exact Hin|].
    apply in_key_visits. auto.
Qed.

Lemma in_visits_unknown (table : offset_table) (updates : list (string * Z))
  (key : string) :
  In (Unknown key) (visits table updates) <->
  is_ignored key = false /\ table_get table key = None /\
  exists val, In (key, val) updates.
Proof.
  unfold visits. rewrite in_flat_map. split.
  - intros ([k v] & Hin & Hv). cbn [fst snd] in Hv. unfold key_visits in Hv.
    destruct (is_ignored k) eqn:Hk; [destruct Hv|].
    destruct (table_get table k) as [e|] eqn:Hg.
    + apply in_map_iff in Hv as (o & Ho & _). discriminate.
    + destruct Hv as [[= <-]|[]]. split; [exact Hk|]. split; [exact Hg|].
      now exists v.
  - intros (Hk & Hg & val & Hin). exists (key, val). split; [exact Hin|].
    cbn [fst snd]. unfold key_visits. rewrite Hk, Hg. now left.
Qed.



(** *** Length of the patched buffer *)

(** C3 (code defect). On a buffer cut short inside a value window the patch
    does not keep the length: the slice assignment of line 606 extends the
    bytearray.  The buffer has 2865 bytes and ends with the int32 marker at
    the indicator position of the second occurrence of "acceleration_scaler"
    (0xB1D + 19 = 2864); the patched buffer has 2869 bytes. *)
Theorem patch_grows_truncated_buffer :
  let jsb := repeat x00 2864 ++ [x02] in
  patch_physical_constraints jsb [("acceleration_scaler"%string, 1)] =
    Ok (repeat x00 2864 ++ [x02; x01; x00; x00; x00],
        [IndicatorWarning "acceleration_scaler" x00]) /\
  length jsb = 2865%nat /\
  length (repeat x00 2864 ++ [x02; x01; x00; x00; x00]) = 2869%nat.
Proof.
  cbv zeta. split; [vm_compute; reflexivity|]. split; vm_compute; reflexivity.
Qed.

(** *** Idempotence *)

(** C8. For every buffer and every edits mapping, patching the patched
    buffer again with the same edits gives the same buffer as patching
    once (and a first patch that raises leaves no buffer to patch). *)
Theorem patch_twice_same_buffer (jsb : list byte) (updates : list (string * Z)) :
  fst <$> (patch_physical_constraints jsb updates ≫=
             fun st => patch_physical_constraints st.1 updates) =
  fst <$> patch_physical_constraints jsb updates.
Proof.
  apply idempotent_on_stable_table. exact table_stable.
Qed.

(** *** The version fields *)

(** C10. The four version fields have entries in the offset table, yet for
    every buffer and every edits mapping: the patch behaves as if the edits
    naming them were not there; no message it prints names one of them; and
    no byte of any of their occurrences (key text, indicator, value) differs
    between the patched buffer and the input. *)
Theorem version_fields_never_patched (jsb : list byte) (updates : list (string * Z)) :
  (forall key, In key version_fields ->
     exists a b, table_get physical_constraints_offsets key = Some (entry a b)) /\
  patch_physical_constraints jsb updates =
    patch_physical_constraints jsb
      (List.filter (fun kv => negb (is_ignored kv.1)) updates) /\
  (forall jsb' out, patch_physical_constraints jsb updates = Ok (jsb', out) ->
     (forall m, In m out -> ~ In (message_key m) version_fields) /\
     (forall key e off x,
        In key version_fields ->
        table_get physical_constraints_offsets key = Some e ->
        In off (occurrences e) -> in_occurrence key off x ->
        jsb' !! x = jsb !! x)).
Proof.
  split; [|split].
  - intros key [<-|[<-|[<-|[<-|[]]]]]; eexists; eexists; reflexivity.
  - apply patch_loop_drop_ignored.
  - intros jsb' out P. split.
    + intros m Hm Hv.
      pose proof (patch_loop_messages physical_constraints_offsets updates (jsb, [])
                    (jsb', out) (List.Forall_nil _) P) as Hall.
      cbn [snd] in Hall. rewrite List.Forall_forall in Hall.
      specialize (Hall m Hm). unfold not_about_ignored in Hall.
      apply version_fields_ignored in Hv. congruence.
    + intros key e off x Hk Hg Hoff Hx.
      pose proof (patch_buf physical_constraints_offsets jsb updates) as H.
      unfold patch_physical_constraints in P. rewrite P in H. cbn in H. symmetry in H.
      destruct (run_ops_frame _ table_stable _ _ _ x
                  (flat_ops_in_table _ updates) H) as [E|(o & Ho & _ & Hw)];
        [exact E|exfalso].
      pose proof (flat_ops_editable physical_constraints_offsets updates) as He.
      rewrite List.Forall_forall in He. specialize (He o Ho).
      pose proof version_occurrences_clear as Hc.
      rewrite forallb_forall in Hc.
      apply (clear_ofb_sound (editable_ips physical_constraints_offsets)
               (key, e) off o.1 x); auto.
      apply Hc. apply filter_In. split; [now apply table_get_In|].
      cbn [fst]. now apply version_fields_ignored.
Qed.

End PatcherSpec.

(** ** The expected-value check *)

Module PhysicsSpec.
Import Patcher Physics.

Lemma passes_decide (obj1 obj2 : gmap string Z) (key : string) (exp : Z) :
  bool_decide (obj1 !! key = Some exp) || bool_decide (obj2 !! key = Some exp) = true
  <-> passes obj1 obj2 key exp.
Proof.
  unfold passes. rewrite orb_true_iff, !bool_decide_eq_true. reflexivity.
Qed.

Lemma verify_loop_spec (obj1 obj2 : gmap string Z) (desired : list (string * Z))
  (ok0 : bool) (out0 : list report) :
  verify_loop obj1 obj2 desired (ok0, out0) =
    (ok0 && forallb (fun kv => bool_decide (obj1 !! kv.1 = Some kv.2) ||
                               bool_decide (obj2 !! kv.1 = Some kv.2)) desired,
     out0 ++ flat_map (item_report obj1 obj2) desired).
Proof.
  revert ok0 out0. induction desired as [|[key exp] desired IH]; intros ok0 out0.
  - cbn. now rewrite andb_true_r, app_nil_r.
  - cbn [verify_loop forallb flat_map fst snd]. unfold item_report at 1. cbn [fst snd].
    destruct (bool_decide (obj1 !! key = Some exp) || bool_decide (obj2 !! key = Some exp)).
    + destruct (bool_decide (obj1 !! key = obj2 !! key)); cbn [negb].
      * rewrite IH. cbn [andb app]. reflexivity.
      * rewrite IH. cbn [andb app fst snd]. now rewrite <- app_assoc.
    + rewrite IH. cbn [andb app fst snd]. rewrite andb_false_r. now rewrite <- app_assoc.
Qed.

Lemma in_item_report_FAIL (obj1 obj2 : gmap string Z) (kv : string * Z)
  (key : string) (v1 v2 : option Z) (exp : Z) :
  In (FAIL key v1 v2 exp) (item_report obj1 obj2 kv) <->
  kv = (key, exp) /\ v1 = obj1 !! key /\ v2 = obj2 !! key /\ ~ passes obj1 obj2 key exp.
Proof.
  destruct kv as [k e]. unfold item_report. cbn [fst snd].
  destruct (bool_decide (obj1 !! k = Some e) || bool_decide (obj2 !! k = Some e)) eqn:P.
  - apply passes_decide in P. split.
    + destruct (bool_decide (obj1 !! k = obj2 !! k)); cbn; intros H; [tauto|].
      destruct H as [H|[]]. discriminate.
    + intros ([= -> ->] & _ & _ & N). contradiction.
  - assert (N : ~ passes obj1 obj2 k e).
    { intros H. apply passes_decide in H. congruence. }
    cbn. split.
    + intros [[= ? ? ? ?]|[]]; subst. auto 10.
    + intros ([= -> ->] & -> & -> & _). now left.
Qed.

Lemma in_item_report_WARN (obj1 obj2 : gmap string Z) (kv : string * Z)
  (key : string) (v1 v2 : option Z) (exp : Z) :
  In (WARN key v1 v2 exp) (item_report obj1 obj2 kv) <->
  kv = (key, exp) /\ v1 = obj1 !! key /\ v2 = obj2 !! key /\
  passes obj1 obj2 key exp /\ obj1 !! key <> obj2 !! key.
Proof.
  destruct kv as [k e]. unfold item_report. cbn [fst snd].
  destruct (bool_decide (obj1 !! k = Some e) || bool_decide (obj2 !! k = Some e)) eqn:P.
  - apply passes_decide in P.
    destruct (bool_decide (obj1 !! k = obj2 !! k)) eqn:D.
    + apply bool_decide_eq_true in D. cbn. split; [tauto|].
      intros ([= -> ->] & _ & _ & _ & N). contradiction.
    + apply bool_decide_eq_false in D. cbn. split.
      * intros [[= ? ? ? ?]|[]]; subst. auto 10.
      * intros ([= -> ->] & -> & -> & _). now left.
  - cbn. split.
    + intros [H|[]]. discriminate.
    + intros ([= -> ->] & _ & _ & N & _). apply passes_decide in N. congruence.
Qed.

(** C5. For every desired-values mapping, with [obj1] and [obj2] the two
    decoded copies: the check returns true exactly when every field has at
    least one copy equal to its expected value; a field is reported as a
    failure exactly when neither copy equals it; it is reported with a
    warning exactly when one copy equals it and the copies differ; and
    nothing else is printed but the closing line. *)
Theorem expected_value_check (jsb : list byte) (desired : list (string * Z))
  (obj1 obj2 : gmap string Z) :
  decode_physical_constraints jsb = Ok (obj1, obj2) ->
  exists (ok : bool) (out : list report),
    verify_physical_constraints jsb (Some desired) =
      Ok (ok, out ++ [if ok then Succeeded else Failed]) /\
    (ok = true <-> forall key exp, In (key, exp) desired -> passes obj1 obj2 key exp) /\
    (forall key v1 v2 exp,
       In (FAIL key v1 v2 exp) out <->
       In (key, exp) desired /\ v1 = obj1 !! key /\ v2 = obj2 !! key /\
       ~ passes obj1 obj2 key exp) /\
    (forall key v1 v2 exp,
       In (WARN key v1 v2 exp) out <->
       In (key, exp) desired /\ v1 = obj1 !! key /\ v2 = obj2 !! key /\
       passes obj1 obj2 key exp /\ obj1 !! key <> obj2 !! key) /\
    (forall m, In m out -> exists key v1 v2 exp,
       m = FAIL key v1 v2 exp \/ m = WARN key v1 v2 exp).
Proof.
  intros D. unfold verify_physical_constraints. rewrite D. result_simpl.
  rewrite verify_loop_spec. cbn [andb app].
  eexists. eexists. split; [reflexivity|]. split; [|split; [|split]].
  - rewrite forallb_forall. split.
    + intros H key exp Hin. apply passes_decide. exact (H (key, exp) Hin).
    + intros H [key exp] Hin. apply passes_decide. exact (H key exp Hin).
  - intros key v1 v2 exp. rewrite in_flat_map. split.
    + intros (kv & Hin & Hm). apply in_item_report_FAIL in Hm as (-> & ?).
      split; assumption.
    + intros (Hin & H). exists (key, exp). split; [exact Hin|].
      now apply in_item_report_FAIL.
  - intros key v1 v2 exp. rewrite in_flat_map. split.
    + intros (kv & Hin & Hm). apply in_item_report_WARN in Hm as (-> & ?).
      split; assumption.
    + intros (Hin & H). exists (key, exp). split; [exact Hin|].
      now apply in_item_report_WARN.
  - intros m Hm. apply in_flat_map in Hm as ([key exp] & _ & Hm).
    unfold item_report in Hm. cbn [fst snd] in Hm.
    exists key, (obj1 !! key), (obj2 !! key), exp.
    destruct (_ || _); [destruct (bool_decide _)|]; cbn in Hm;
      try contradiction; destruct Hm as [<-|[]]; auto.
Qed.

Lemma expected_value_check_witness :
  exists (ok : bool) (out : list report),
    verify_physical_constraints Sample.two_copies (Some [("walk_speed"%string, 100)]) =
      Ok (ok, out ++ [if ok then Succeeded else Failed]) /\
    (ok = true <->
     forall key exp, In (key, exp) [("walk_speed"%string, 100)] ->
       passes {["walk_speed"%string := 100]} {["walk_speed"%string := 200]} key exp).
Proof.
  destruct (expected_value_check Sample.two_copies [("walk_speed"%string, 100)]
              {["walk_speed"%string := 100]} {["walk_speed"%string := 200]})
    as (ok & out & H1 & H2 & _).
  - vm_compute. reflexivity.
  - exists ok, out. split; assumption.
Defined.

(** The two copies of the sample disagree on "walk_speed" (100 and 200):
    expecting 100 passes with a warning, expecting 300 fails. *)
Example copies_disagree_one_matches :
  verify_physical_constraints Sample.two_copies (Some [("walk_speed"%string, 100)]) =
    Ok (true, [WARN "walk_speed" (Some 100) (Some 200) 100; Succeeded]) /\
  verify_physical_constraints Sample.two_copies (Some [("walk_speed"%string, 300)]) =
    Ok (false, [FAIL "walk_speed" (Some 100) (Some 200) 300; Failed]).
Proof. split; vm_compute; reflexivity. Qed.

End PhysicsSpec.

(** ** The token stream reader *)

Module RatingsSpec.
Import Ratings.

Lemma tok_next_unfold (buf : list byte) (n i : nat) :
  tok_next buf n i =
  if decide (i + 2 < n)%nat then
    match tok_step buf i with
    | Raise e => Raise e
    | Ok (Yield t) => Ok (Some t)
    | Ok (Continue i') => tok_next buf n i'
    end
  else Ok None.
Proof.
  funelim (tok_next buf n i); rewrite Heq; try reflexivity.
  all: match goal with H : tok_step _ _ = _ |- _ => rewrite H end; reflexivity.
Qed.

(** *** Malformed key headers *)

(** C6, as stated, fails on the code for the prefix encoding: after a
    prefix byte whose length byte is malformed the reader resumes two bytes
    further, not one.  Here the prefix 0x2A is followed by the length byte
    0x6A (106 > 96): the turn at 0 continues at 2, where the reader finds the
    key "k" with the int32 1, while a scan resumed at 1 would take 0x6A for a
    prefix and 0x2A for a key length of 42, and run off the buffer. *)
Lemma prefix_header_skips_two_bytes :
  let buf := [x2a; x6a; x2a; x01; x6b; x02; x01; x00; x00; x00; x00; x00; x00] in
  is_prefix_mark x2a = true /\ klen_ok x6a = false /\
  tok_step buf 0 = Ok (Continue 2) /\
  tok_next buf 13 0 = Ok (Some {| key := str_of "k"; val := I32 1; cursor := 10 |}) /\
  tok_next buf 13 1 = Raise IndexError.
Proof. cbv zeta. repeat split; vm_compute; reflexivity. Qed.

(** C6 (amended). At a position [i] inside the scanned range whose key
    header is malformed, the turn of the reader raises nothing and the scan
    goes on: one byte further when the byte at [i] is an inline length of 0
    or above 96 (and no prefix byte), two bytes further, past the prefix and
    the length byte, when the byte at [i] is a prefix byte and the length
    byte after it is 0 or above 96. *)
Theorem malformed_header_skipped (buf : list byte) (n i : nat) (mark : byte) :
  (i + 2 < n)%nat -> buf !! i = Some mark ->
  (is_prefix_mark mark = false -> byte_val mark = 0 \/ 96 < byte_val mark ->
     tok_step buf i = Ok (Continue (i + 1)) /\
     tok_next buf n i = tok_next buf n (i + 1)) /\
  (is_prefix_mark mark = true ->
     forall klen, buf !! (i + 1)%nat = Some klen ->
     byte_val klen = 0 \/ 96 < byte_val klen ->
     tok_step buf i = Ok (Continue (i + 2)) /\
     tok_next buf n i = tok_next buf n (i + 2)).
Proof.
  intros Hn Hm.
  assert (Hbad : forall b, byte_val b = 0 \/ 96 < byte_val b -> klen_ok b = false).
  { intros b Hb. unfold klen_ok. apply andb_false_iff.
    rewrite Z.ltb_ge, Z.leb_gt. lia. }
  split.
  - intros Hp Hk.
    assert (S : tok_step buf i = Ok (Continue (i + 1))).
    { unfold tok_step, getitem. rewrite Hm. result_simpl.
      now rewrite Hp, (Hbad mark Hk). }
    split; [exact S|]. rewrite (tok_next_unfold buf n i), S.
    destruct (decide (i + 2 < n)%nat); [reflexivity|lia].
  - intros Hp klen Hl Hk.
    assert (S : tok_step buf i = Ok (Continue (i + 2))).
    { unfold tok_step, getitem. rewrite Hm. result_simpl.
      rewrite Hp, Hl. result_simpl. rewrite (Hbad klen Hk). cbn [negb].
      do 2 f_equal. lia. }
    split; [exact S|]. rewrite (tok_next_unfold buf n i), S.
    destruct (decide (i + 2 < n)%nat); [reflexivity|lia].
Qed.

Lemma malformed_header_skipped_witness :
  let buf := [xc8; x2a; x00; x01; x6b; x02; x01; x00; x00; x00; x00; x00; x00] in
  (tok_step buf 0 = Ok (Continue 1) /\ tok_next buf 13 0 = tok_next buf 13 1) /\
  (tok_step buf 1 = Ok (Continue 3) /\ tok_next buf 13 1 = tok_next buf 13 3).
Proof.
  cbv zeta. split.
  - destruct (malformed_header_skipped
                [xc8; x2a; x00; x01; x6b; x02; x01; x00; x00; x00; x00; x00; x00]
                13 0 xc8) as [H _]; [lia|reflexivity|].
    apply H; [reflexivity|right; vm_compute; reflexivity].
  - destruct (malformed_header_skipped
                [xc8; x2a; x00; x01; x6b; x02; x01; x00; x00; x00; x00; x00; x00]
                13 1 x2a) as [_ H]; [lia|reflexivity|].
    apply (H eq_refl x00); [reflexivity|left; reflexivity].
Defined.

(** *** Resynchronisation in the expected-score table *)

(** C2 (code defect). The first row of the sample has a name token that
    ends with the control byte 0x13.  The stream is rewound by one byte in
    both modes (the row is read to its end), but the stray byte is trimmed
    from the stored name only when [verbose] is set: the assignment
    [name = name[:-1]] sits inside the [if verbose:] block. *)
Theorem stray_byte_kept_without_verbose :
  let n := length Sample.stray_scores in
  let neutral := {| name := str_of "Neutral"; negative_multiplier := 1000;
                    positive_multiplier := 1000 |} in
  parse_expected_score Sample.stray_scores 0 n false =
    Ok ({| name := str_of "ab" ++ [0x13]; negative_multiplier := 1000;
           positive_multiplier := 1200 |} :: repeat neutral 10) /\
  parse_expected_score Sample.stray_scores 0 n true =
    Ok ({| name := str_of "ab"; negative_multiplier := 1000;
           positive_multiplier := 1200 |} :: repeat neutral 10).
Proof. cbv zeta. split; vm_compute; reflexivity. Qed.

(** For every buffer: a name that ends with a control character restarts
    the stream one byte before the cursor of the name token, whatever
    [verbose] is, and is stored trimmed only when [verbose] is set. *)
Lemma parse_expected_row_resync (buf : list byte) (stop ts n_pos : nat)
  (verbose : bool) (s : pystr) :
  expect buf stop ts "name" [T_str] = Ok (Str s, n_pos) ->
  ends_with_control s = true ->
  parse_expected_row buf stop verbose ts =
    '(neg, neg_pos) ← expect buf stop (n_pos - 1) "negative_multiplier" [T_i32; T_i64];
    '(pos, pos_pos) ← expect buf stop neg_pos "positive_multiplier" [T_i32; T_i64];
    Ok ({| name := if verbose then removelast s else s;
           negative_multiplier := int_value neg;
           positive_multiplier := int_value pos |}, pos_pos).
Proof.
  intros E C. unfold parse_expected_row. rewrite E. result_simpl.
  cbn [str_value]. rewrite C. reflexivity.
Qed.

(** *** role_lookup_data *)

Lemma lookup_loop_unfold (data : list byte) (declared : option nat) (cur : nat)
  (rows : list Role_lookup_object) :
  lookup_loop data declared cur rows =
  match lookup_step data cur with
  | Raise e => Raise e
  | Ok None => Ok rows
  | Ok (Some (r, nxt)) =>
    if count_reached declared (rows ++ [r]) then Ok (rows ++ [r])
    else lookup_loop data declared nxt (rows ++ [r])
  end.
Proof.
  funelim (lookup_loop data declared cur rows).
  all: match goal with H : lookup_step _ _ = _ |- _ => rewrite H end; reflexivity.
Qed.

(** C4 (code defect). An array that declares no row, followed inside the
    scanned range by a row: the loop tests the count only after it has
    appended a row, so the parser reads one row past the declared count and
    then raises, where an array that declares two rows and is followed by
    three stops after the second. *)
Theorem declared_zero_reads_a_row :
  parse_role_lookup Sample.empty_array_then_row 0 (length Sample.empty_array_then_row) =
    Raise (RuntimeError (RowCount 0 1)) /\
  parse_role_lookup Sample.two_declared_three_rows 0
      (length Sample.two_declared_three_rows) =
    Ok [{| index := 0; role := 1 |}; {| index := 1; role := 2 |}].
Proof. split; vm_compute; reflexivity. Qed.

(** Fewer rows than declared: the truncated-or-corrupt error. *)
Example fewer_rows_than_declared :
  parse_role_lookup Sample.three_declared_two_rows 0
      (length Sample.three_declared_two_rows) =
    Raise (RuntimeError (RowCount 3 2)).
Proof. vm_compute. reflexivity. Qed.

(** The parser never returns, for an array, a list whose length is not the
    declared count. *)
Lemma parse_role_lookup_count (buf : list byte) (start stop : nat)
  (rows : list Role_lookup_object) :
  parse_role_lookup buf start stop = Ok rows ->
  buf !! (start + 16)%nat = Some x09 ->
  exists d, unpack_unsigned 4 buf (start + 17) = Ok d /\ length rows = Z.to_nat d.
Proof.
  unfold parse_role_lookup.
  change (length (list_byte_of_string "role_lookup_data")) with 16%nat.
  destruct (negb (bool_decide _)); [discriminate|].
  unfold getitem. intros H Hc. rewrite Hc in H. result_simpl.
  replace (start + 16 + 1)%nat with (start + 17)%nat in H by lia.
  cbn [existsb byte_val Byte.to_N Z.of_N Z.eqb Pos.eqb orb] in H.
  destruct (unpack_unsigned 4 buf (start + 17)) as [d|e]; result_simpl; [|discriminate].
  destruct (lookup_loop _ _ _ _) as [rows'|e]; result_simpl; [|discriminate].
  destruct (length rows' =? Z.to_nat d)%nat eqn:L; cbn [negb] in H; [|discriminate].
  injection H as <-. apply Nat.eqb_eq in L. eauto.
Qed.

Lemma lookup_loop_extends (data : list byte) (declared : option nat) (cur : nat)
  (rows all : list Role_lookup_object) :
  lookup_loop data declared cur rows = Ok all -> exists more, all = rows ++ more.
Proof.
  remember (length data - cur)%nat as m eqn:Hm. revert cur rows Hm.
  induction m as [m IH] using lt_wf_ind. intros cur rows Hm.
  rewrite lookup_loop_unfold.
  destruct (lookup_step data cur) as [[[r nxt]|]|e] eqn:S; [| |discriminate].
  - destruct (count_reached declared (rows ++ [r])).
    + intros [= <-]. eauto.
    + intros H. apply lookup_step_advance in S.
      apply (IH (length data - nxt)%nat) in H as [more ->]; [|lia|reflexivity].
      exists (r :: more). now rewrite <- app_assoc.
  - intros [= <-]. exists []. now rewrite app_nil_r.
Qed.

(** With a declared count of at least one, the scan returns the first
    [d] rows of what the scan without a count finds, when that has [d] rows
    or more: it stops at the count although more rows follow. *)
Lemma lookup_loop_stops_at_count (data : list byte) (d cur : nat)
  (rows all : list Role_lookup_object) :
  (length rows < d <= length all)%nat ->
  lookup_loop data None cur rows = Ok all ->
  lookup_loop data (Some d) cur rows = Ok (take d all).
Proof.
  remember (length data - cur)%nat as m eqn:Hm. revert cur rows Hm.
  induction m as [m IH] using lt_wf_ind. intros cur rows Hm Hd.
  rewrite !lookup_loop_unfold.
  destruct (lookup_step data cur) as [[[r nxt]|]|e] eqn:S; [| |discriminate].
  - cbn [count_reached]. intros H.
    destruct (lookup_loop_extends _ _ _ _ _ H) as [more Hall].
    destruct (d <=? length (rows ++ [r]))%nat eqn:L.
    + apply Nat.leb_le in L. rewrite length_app in L. cbn in L.
      f_equal. rewrite Hall. rewrite take_app_length'; [reflexivity|].
      rewrite length_app. cbn. lia.
    + apply Nat.leb_gt in L. apply lookup_step_advance in S.
      apply (IH (length data - nxt)%nat); [lia|reflexivity| |exact H]. lia.
  - intros [= <-]. lia.
Qed.

(** *** role_data *)

Lemma role_loop_unfold (data : list byte) (body stop cur : nat)
  (st : list (list Role_object) * list Role_object) :
  role_loop data body stop cur st =
  match role_step data cur with
  | Raise e => Raise e
  | Ok None => Ok st
  | Ok (Some (c, nxt)) =>
    if (stop <=? body + nxt)%nat then Ok (collect c st)
    else role_loop data body stop nxt (collect c st)
  end.
Proof.
  funelim (role_loop data body stop cur st).
  all: match goal with H : role_step _ _ = _ |- _ => rewrite H end; reflexivity.
Qed.

Lemma role_scan_unfold (data : list byte) (body stop cur : nat) :
  role_scan data body stop cur =
  match role_step data cur with
  | Raise e => Raise e
  | Ok None => Ok []
  | Ok (Some (c, nxt)) =>
    if (stop <=? body + nxt)%nat then Ok [c]
    else cons c <$> role_scan data body stop nxt
  end.
Proof.
  funelim (role_scan data body stop cur).
  all: match goal with H : role_step _ _ = _ |- _ => rewrite H end; reflexivity.
Qed.

(** The loop distributes the scanned coefficients with [collect]. *)
Lemma role_loop_scan (data : list byte) (body stop cur : nat)
  (st : list (list Role_object) * list Role_object) :
  role_loop data body stop cur st =
  flat ← role_scan data body stop cur;
  Ok (fold_left (fun st c => collect c st) flat st).
Proof.
  remember (length data - cur)%nat as m eqn:Hm. revert cur st Hm.
  induction m as [m IH] using lt_wf_ind. intros cur st Hm.
  rewrite role_loop_unfold, role_scan_unfold.
  destruct (role_step data cur) as [[[c nxt]|]|e] eqn:S; try reflexivity.
  destruct (stop <=? body + nxt)%nat; [reflexivity|].
  apply role_step_advance in S.
  rewrite (IH (length data - nxt)%nat) by lia.
  destruct (role_scan data body stop nxt); reflexivity.
Qed.

Lemma collect_ok (c : Role_object) (st : list (list Role_object) * list Role_object) :
  blocks_ok st ->
  blocks_ok (collect c st) /\
  concat (collect c st).1 ++ (collect c st).2 = concat st.1 ++ st.2 ++ [c].
Proof.
  destruct st as [blocks coeffs]. unfold blocks_ok, collect. cbn [fst snd].
  intros [Hb Hc].
  destruct (length (coeffs ++ [c]) =? 52)%nat eqn:L; cbn [fst snd].
  - apply Nat.eqb_eq in L. split.
    + split; [|cbn; lia]. apply Forall_app. split; [exact Hb|].
      constructor; [exact L|constructor].
    + rewrite concat_app. cbn. now rewrite !app_nil_r.
  - apply Nat.eqb_neq in L. rewrite length_app in *. cbn in *. split.
    + split; [exact Hb|lia].
    + reflexivity.
Qed.

Lemma fold_collect_ok (flat : list Role_object)
  (st : list (list Role_object) * list Role_object) :
  blocks_ok st ->
  let st' := fold_left (fun st c => collect c st) flat st in
  blocks_ok st' /\ concat st'.1 ++ st'.2 = concat st.1 ++ st.2 ++ flat.
Proof.
  revert st. induction flat as [|c flat IH]; intros st Hst; cbn [fold_left].
  - cbv zeta. split; [exact Hst|]. now rewrite app_nil_r.
  - destruct (collect_ok c st Hst) as [Hc Hcat].
    destruct (IH (collect c st) Hc) as [H1 H2]. cbv zeta in *.
    split; [exact H1|]. rewrite H2.
    rewrite (app_assoc (concat (collect c st).1)), Hcat.
    now rewrite <- !app_assoc.
Qed.

(** C9. When [parse_role_data] returns, every block of the result has
    exactly 52 coefficients; the coefficients met by the scan are those of
    the blocks, in order, followed by a fragment of fewer than 52 that is in
    no block; and the fragment is reported with its length exactly when it
    is not empty. *)
Theorem role_blocks_have_52 (buf : list byte) (start stop : nat)
  (blocks : list (list Role_object)) (report : option nat) :
  parse_role_data buf start stop = Ok (blocks, report) ->
  Forall (fun b => length b = 52%nat) blocks /\
  exists body flat fragment,
    role_data_body buf start = Ok body /\
    role_scan (slice buf body stop) body stop 0 = Ok flat /\
    flat = concat blocks ++ fragment /\
    (length fragment < 52)%nat /\
    report = match fragment with [] => None | _ => Some (length fragment) end.
Proof.
  unfold parse_role_data.
  destruct (role_data_body buf start) as [body|] eqn:B; result_simpl; [|discriminate].
  rewrite role_loop_scan.
  destruct (role_scan (slice buf body stop) body stop 0) as [flat|] eqn:Sc;
    result_simpl; [|discriminate].
  assert (H0 : blocks_ok ([], [])) by (split; [constructor|cbn; lia]).
  destruct (fold_collect_ok flat ([], []) H0) as [[Hb Hc] Hcat]. cbv zeta in *.
  destruct (fold_left _ flat ([], [])) as [blocks' coeffs'].
  cbn [fst snd] in *. intros [= <- <-].
  split; [exact Hb|]. exists body, flat, coeffs'.
  split; [reflexivity|]. split; [exact Sc|]. split; [now rewrite Hcat|].
  split; [exact Hc|].
  unfold trailing_report. reflexivity.
Qed.

Lemma role_blocks_have_52_witness :
  Forall (fun b => length b = 52%nat) [repeat (mk_Role_object (str_of "a") 5) 52] /\
  exists body flat fragment,
    role_data_body Sample.role_section 0 = Ok body /\
    role_scan (slice Sample.role_section body (length Sample.role_section)) body
      (length Sample.role_section) 0 = Ok flat /\
    flat = concat [repeat (mk_Role_object (str_of "a") 5) 52] ++ fragment /\
    (length fragment < 52)%nat /\
    Some 1%nat = match fragment with [] => None | _ => Some (length fragment) end.
Proof.
  apply (role_blocks_have_52 Sample.role_section 0 (length Sample.role_section)).
  vm_compute. reflexivity.
Defined.

End RatingsSpec.

(** ** The int32 marker across the decoders *)

Module CodecSpec.
Import Ratings.

(** The decoder on well-formed and ill-formed sequences: the euro sign, a
    sequence cut by an ASCII byte, an overlong lead, a surrogate, a
    sequence cut by the end of the input. *)
Example decode_samples :
  decode [xe2; x82; xac; x41; xe2; x82; x41; xc0; x80] =
    [0x20AC; 0x41; 0xFFFD; 0x41; 0xFFFD; 0xFFFD] /\
  decode [xed; xa0; x80; xf0; x9f] = [0xFFFD; 0xFFFD; 0xFFFD; 0xFFFD] /\
  decode (list_byte_of_string "name") = str_of "name".
Proof. repeat split. Qed.

Lemma slice_whole (bs : list byte) : slice bs 0 (0 + length bs) = bs.
Proof. unfold slice. cbn [drop]. rewrite Nat.add_0_l, Nat.sub_0_r. apply firstn_all. Qed.

Lemma unpack_unsigned_slice (n : nat) (d : list byte) (q : nat) (bs : list byte) :
  slice d q (q + n) = bs -> length bs = n ->
  unpack_unsigned n d q = Ok (from_bytes bs).
Proof.
  intros Hs Hl. unfold unpack_unsigned. rewrite Hs.
  destruct (decide (length bs = n)); [reflexivity|contradiction].
Qed.

Lemma unpack_signed_slice (n : nat) (d : list byte) (q : nat) (bs : list byte) :
  slice d q (q + n) = bs -> length bs = n ->
  unpack_signed n d q = Ok (to_signed n (from_bytes bs)).
Proof.
  intros Hs Hl. unfold unpack_signed. now rewrite (unpack_unsigned_slice n d q bs).
Qed.

Lemma from_bytes_4 (b0 b1 b2 b3 : byte) :
  from_bytes [b0; b1; b2; b3] =
  byte_val b0 + 256 * byte_val b1 + 65536 * byte_val b2 + 16777216 * byte_val b3.
Proof. cbn [from_bytes]. lia. Qed.

(** The signed reading is negative exactly when the top bit of the fourth
    byte is set; the unsigned reading never is. *)
Lemma signed_negative_iff (b0 b1 b2 b3 : byte) :
  to_signed 4 (from_bytes [b0; b1; b2; b3]) < 0 <-> 128 <= byte_val b3.
Proof.
  rewrite from_bytes_4. unfold to_signed.
  change (2 ^ (8 * Z.of_nat 4 - 1)) with 2147483648.
  change (2 ^ (8 * Z.of_nat 4)) with 4294967296.
  pose proof (byte_val_range b0). pose proof (byte_val_range b1).
  pose proof (byte_val_range b2). pose proof (byte_val_range b3).
  destruct (Z.ltb_spec (byte_val b0 + 256 * byte_val b1 + 65536 * byte_val b2 +
                        16777216 * byte_val b3) 2147483648); lia.
Qed.

Lemma unsigned_top_bit (b0 b1 b2 b3 : byte) :
  0 <= from_bytes [b0; b1; b2; b3] /\
  (128 <= byte_val b3 -> 2 ^ 31 <= from_bytes [b0; b1; b2; b3]).
Proof.
  rewrite from_bytes_4. change (2 ^ 31) with 2147483648.
  pose proof (byte_val_range b0). pose proof (byte_val_range b1).
  pose proof (byte_val_range b2). pose proof (byte_val_range b3). lia.
Qed.




End CodecSpec.

(** ** Slices and little-endian bytes *)

Module SliceFacts.

Lemma slice_of_lookups (b v : list byte) (lo : nat) :
  (forall j, (j < length v)%nat -> b !! (lo + j)%nat = v !! j) ->
  slice b lo (lo + length v) = v.
Proof.
  intros H. unfold slice. replace (lo + length v - lo)%nat with (length v) by lia.
  apply list_eq. intros i. rewrite lookup_take.
  case_decide as Hi.
  - rewrite lookup_drop. now apply H.
  - symmetry. apply lookup_ge_None. lia.
Qed.

Lemma slice_assign_same (b v : list byte) (lo : nat) :
  slice b lo (lo + length v) = v -> slice_assign b lo (lo + length v) v = b.
Proof.
  unfold slice, slice_assign. replace (lo + length v - lo)%nat with (length v) by lia.
  intros H. transitivity (take lo b ++ drop lo b); [|apply take_drop].
  f_equal. rewrite <- (take_drop (length v) (drop lo b)).
  rewrite H, drop_drop. reflexivity.
Qed.

Lemma le_bytes_from_bytes (bs : list byte) :
  le_bytes (length bs) (from_bytes bs) = bs.
Proof.
  induction bs as [|b bs IH]; [reflexivity|].
  cbn [length le_bytes from_bytes].
  pose proof (byte_val_range b) as Hb. f_equal.
  - apply byte_val_inj. rewrite byte_of_Z_val.
    rewrite (Z.mul_comm 256), Z.mod_add by lia. now apply Z.mod_small.
  - rewrite (Z.mul_comm 256), Z.div_add by lia.
    rewrite Z.div_small by lia. exact IH.
Qed.

Lemma from_bytes_range (bs : list byte) :
  0 <= from_bytes bs < 256 ^ Z.of_nat (length bs).
Proof.
  induction bs as [|b bs IH]; [cbn; lia|].
  cbn [length from_bytes]. pose proof (byte_val_range b).
  rewrite Nat2Z.inj_succ, Z.pow_succ_r by lia. lia.
Qed.

Lemma length_slice (b : list byte) (lo hi : nat) :
  length (slice b lo hi) = Nat.min (hi - lo) (length b - lo).
Proof. unfold slice. now rewrite length_take, length_drop. Qed.

End SliceFacts.

(** ** Runs of the patcher *)

Module PatcherRuns.
Import Patcher TableLayout PatcherSpec SliceFacts.

(** *** Which operations a patch unfolds to *)

Lemma in_key_ops (table : offset_table) (key : string) (val : Z) (o : nat * Z) :
  In o (key_ops table key val) <->
  is_ignored key = false /\
  exists e off, table_get table key = Some e /\ In off (occurrences e) /\
                o = ((off + String.length key)%nat, val).
Proof.
  unfold key_ops. destruct (is_ignored key).
  - cbn. split; [tauto|]. intros [H _]. discriminate.
  - destruct (table_get table key) as [e|].
    + rewrite in_map_iff. split.
      * intros (off & <- & Hoff). split; [reflexivity|]. eauto.
      * intros (_ & e' & off & [= <-] & Hoff & ->). eauto.
    + cbn. split; [tauto|]. intros (_ & e & off & H & _). discriminate.
Qed.

Lemma in_flat_ops (table : offset_table) (updates : list (string * Z)) (o : nat * Z) :
  In o (flat_ops table updates) <->
  exists key val e off,
    In (key, val) updates /\ is_ignored key = false /\
    table_get table key = Some e /\ In off (occurrences e) /\
    o = ((off + String.length key)%nat, val).
Proof.
  unfold flat_ops. rewrite in_flat_map. split.
  - intros ([key val] & Hin & Ho). cbn [fst snd] in Ho.
    apply in_key_ops in Ho as (Hi & e & off & Hg & Hoff & ->).
    exists key, val, e, off. auto 10.
  - intros (key & val & e & off & Hin & Hi & Hg & Hoff & ->).
    exists (key, val). split; [exact Hin|]. cbn [fst snd].
    apply in_key_ops. split; [exact Hi|]. exists e, off. auto.
Qed.

(** *** When a patch raises *)

Lemma to_bytes_4_inv (v : Z) (bs : list byte) :
  to_bytes 4 v = Some bs -> 0 <= v < 2 ^ 32 /\ bs = le_bytes 4 v.
Proof.
  unfold to_bytes. change (256 ^ Z.of_nat 4) with (2 ^ 32).
  destruct (0 <=? v) eqn:A; destruct (v <? 2 ^ 32) eqn:B; cbn; try discriminate.
  intros [= <-]. apply Z.leb_le in A. apply Z.ltb_lt in B. auto.
Qed.

Lemma write_op_ok_iff (o : nat * Z) (b : list byte) :
  (exists b', write_op o b = Ok b') <-> op_ok b o.
Proof.
  destruct o as [p v]. unfold op_ok. cbn [fst snd]. split.
  - intros [b' H]. apply write_op_inv in H as [(ind & Hp & Hne & _)|(vb & Hp & Hv & _)].
    + exists ind. split; [exact Hp|]. intros ->. contradiction.
    + exists x02. split; [exact Hp|]. intros _. now apply to_bytes_4_inv in Hv.
  - intros (ind & Hp & Hv). unfold write_op, getitem. cbn [fst snd]. rewrite Hp.
    result_simpl. destruct (byte_val ind =? 2) eqn:T; cbn [negb]; [|eauto].
    apply byte_val_is_2 in T. rewrite to_bytes_Some; [eauto|].
    change (256 ^ Z.of_nat 4) with (2 ^ 32). auto.
Qed.

Section StableRuns.

Variable ips : list nat.
Hypothesis ips_stable : stable ips.

Lemma op_ok_after_write (o o' : nat * Z) (b b' : list byte) :
  In o.1 ips -> In o'.1 ips -> write_op o b = Ok b' ->
  op_ok b' o' <-> op_ok b o'.
Proof.
  intros Ho Ho' W. destruct o as [p v]. unfold op_ok.
  now rewrite (stable_indicator ips ips_stable p o'.1 v b b').
Qed.

Lemma run_ops_ok_iff (ops : list (nat * Z)) (b : list byte) :
  Forall (fun o => In o.1 ips) ops ->
  (exists b1, run_ops ops b = Ok b1) <-> Forall (op_ok b) ops.
Proof.
  revert b. induction ops as [|o ops IH]; intros b Hops.
  - cbn. split; [constructor|eauto].
  - apply Forall_cons_1 in Hops as [Ho Hops]. cbn [run_ops]. split.
    + intros [b1 H].
      destruct (write_op o b) as [b'|e] eqn:W; result_simpl; [|discriminate].
      constructor.
      * apply write_op_ok_iff. eauto.
      * assert (Hr : Forall (op_ok b') ops) by (apply IH; eauto).
        rewrite List.Forall_forall in *. intros o' Hin.
        apply (op_ok_after_write o o' b b'); auto.
    + intros H. apply Forall_cons_1 in H as [H1 H2].
      apply write_op_ok_iff in H1 as [b' W]. rewrite W. result_simpl.
      apply IH; [exact Hops|].
      rewrite List.Forall_forall in *. intros o' Hin.
      apply (op_ok_after_write o o' b b'); auto.
Qed.

(** After a run over pairwise distinct indicator positions, the window of
    every operation whose indicator was the int32 marker holds its value. *)
Lemma run_ops_final (ops : list (nat * Z)) (b b1 : list byte) (p : nat) (v : Z) :
  Forall (fun o => In o.1 ips) ops ->
  NoDup (map fst ops) ->
  run_ops ops b = Ok b1 ->
  In (p, v) ops -> b !! p = Some x02 ->
  forall j, (j < 4)%nat -> b1 !! (p + 1 + j)%nat = le_bytes 4 v !! j.
Proof.
  revert b. induction ops as [|o ops IH]; intros b Hops Hnd H Hin Hp j Hj; [destruct Hin|].
  apply Forall_cons_1 in Hops as [Ho Hops].
  cbn [map] in Hnd. apply NoDup_cons in Hnd as [Hfresh Hnd].
  cbn [run_ops] in H.
  destruct (write_op o b) as [b'|e] eqn:W; result_simpl; [|discriminate].
  destruct Hin as [->|Hin].
  - (* the operation itself: later operations leave its window alone *)
    destruct (write_op_window _ _ _ _ W Hp) as (_ & _ & Hw).
    rewrite <- (Hw j Hj).
    destruct (run_ops_frame ips ips_stable ops b' b1 (p + 1 + j) Hops H)
      as [E|(o' & Hin' & _ & Hw')]; [exact E|exfalso].
    cbn [fst] in *. rewrite List.Forall_forall in Hops.
    assert (Hne : o'.1 <> p).
    { intros <-. apply Hfresh. apply list_elem_of_In. apply in_map. exact Hin'. }
    pose proof (ips_stable p o'.1 Ho (Hops o' Hin')) as S1.
    pose proof (ips_stable o'.1 p (Hops o' Hin') Ho) as S2.
    unfold in_window in *. lia.
  - (* a later operation *)
    apply (IH b'); auto.
    destruct o as [q w]. cbn [fst] in Ho.
    rewrite (stable_indicator ips ips_stable q p w b b'); auto.
    rewrite List.Forall_forall in Hops. exact (Hops (p, v) Hin).
Qed.

End StableRuns.

(** *** Properties of the patch *)

(** X1. Edits the patch does not track never touch the buffer: when every key
    of the updates is ignored or absent from the table, the buffer comes
    back as it was, with one warning for each absent key, in order. *)
Theorem untracked_edits_only_warn (table : offset_table) (jsb : list byte)
  (updates : list (string * Z)) :
  (forall key val, In (key, val) updates ->
     is_ignored key = true \/ table_get table key = None) ->
  patch table jsb updates =
    Ok (jsb, map (fun kv => KeyNotInTable kv.1)
               (List.filter (fun kv => negb (is_ignored kv.1)) updates)).
Proof.
  unfold patch. intros H.
  enough (G : forall out,
            patch_loop table updates (jsb, out) =
            Ok (jsb, out ++ map (fun kv => KeyNotInTable kv.1)
                       (List.filter (fun kv => negb (is_ignored kv.1)) updates)))
    by apply (G []).
  revert H. induction updates as [|[key val] updates IH]; intros H out.
  - cbn. now rewrite app_nil_r.
  - cbn [patch_loop List.filter fst]. unfold patch_key.
    destruct (H key val (or_introl eq_refl)) as [Hi|Hg].
    + rewrite Hi. result_simpl. cbn [negb]. apply IH.
      intros k v Hin. apply (H k v). now right.
    + destruct (is_ignored key) eqn:Hi; result_simpl; cbn [negb].
      * apply IH. intros k v Hin. apply (H k v). now right.
      * rewrite Hg. result_simpl. cbn [fst snd map].
        rewrite IH by (intros k v Hin; apply (H k v); now right).
        now rewrite <- app_assoc.
Qed.

Lemma untracked_edits_only_warn_witness :
  patch physical_constraints_offsets [x02; x00]
    [("version_year"%string, 25); ("pace"%string, 3)] =
  Ok ([x02; x00], [KeyNotInTable "pace"]).
Proof.
  apply (untracked_edits_only_warn physical_constraints_offsets [x02; x00]
           [("version_year"%string, 25); ("pace"%string, 3)]).
  intros key val [[= <- <-]|[[= <- <-]|[]]]; [left|right]; reflexivity.
Defined.

Lemma patch_ok_iff_run (table : offset_table) (jsb : list byte)
  (updates : list (string * Z)) :
  (exists st, patch table jsb updates = Ok st) <->
  (exists b1, run_ops (flat_ops table updates) jsb = Ok b1).
Proof.
  rewrite <- patch_buf. destruct (patch table jsb updates) as [[b1 out]|e]; cbn.
  - split; eauto.
  - split; intros [? H]; discriminate.
Qed.

Lemma write_op_raises (o : nat * Z) (b : list byte) (e : exn) :
  write_op o b = Raise e -> e = IndexError \/ e = OverflowError.
Proof.
  unfold write_op, getitem. destruct (b !! o.1) as [ind|]; result_simpl.
  - destruct (negb (byte_val ind =? 2)); [discriminate|].
    destruct (to_bytes 4 o.2); [discriminate|]. intros [= <-]. now right.
  - intros [= <-]. now left.
Qed.

Lemma run_ops_raises (ops : list (nat * Z)) (b : list byte) (e : exn) :
  run_ops ops b = Raise e -> e = IndexError \/ e = OverflowError.
Proof.
  revert b. induction ops as [|o ops IH]; intros b; cbn [run_ops]; [discriminate|].
  destruct (write_op o b) as [b'|e'] eqn:W; result_simpl.
  - apply IH.
  - intros [= <-]. now apply write_op_raises in W.
Qed.

(** X2. The patch of the module goes through exactly when, for every edit of a
    tracked field and every occurrence of it, the indicator byte lies inside
    the input buffer and, where it is the int32 marker, the value is in
    [0, 2^32); otherwise it raises IndexError or OverflowError (and the
    handler writes nothing). *)
Theorem patch_succeeds_iff (jsb : list byte) (updates : list (string * Z)) :
  ((exists st, patch_physical_constraints jsb updates = Ok st) <->
   forall key val e off,
     In (key, val) updates -> is_ignored key = false ->
     table_get physical_constraints_offsets key = Some e ->
     In off (occurrences e) ->
     exists ind, jsb !! (off + String.length key)%nat = Some ind /\
                 (ind = x02 -> 0 <= val < 2 ^ 32)) /\
  (forall e, patch_physical_constraints jsb updates = Raise e ->
     e = IndexError \/ e = OverflowError).
Proof.
  split.
  - unfold patch_physical_constraints. rewrite patch_ok_iff_run.
    rewrite (run_ops_ok_iff _ table_stable _ _ (flat_ops_in_table _ updates)).
    rewrite List.Forall_forall. split.
    + intros H key val e off Hin Hi Hg Hoff.
      apply (H ((off + String.length key)%nat, val)).
      apply in_flat_ops. exists key, val, e, off. auto 10.
    + intros H o Ho. apply in_flat_ops in Ho
        as (key & val & e & off & Hin & Hi & Hg & Hoff & ->).
      exact (H key val e off Hin Hi Hg Hoff).
  - intros e H. pose proof (patch_buf physical_constraints_offsets jsb updates) as B.
    unfold patch_physical_constraints in H. rewrite H in B. cbn in B.
    symmetry in B. now apply run_ops_raises in B.
Qed.

(** *** What a successful patch leaves in the buffer *)

Lemma flat_map_nodup_apart {A B : Type} (f : A -> list B) (l : list A)
  (a b : A) (x : B) :
  NoDup (flat_map f l) -> In a l -> In b l -> In x (f a) -> In x (f b) -> a = b.
Proof.
  induction l as [|c l IH]; cbn [flat_map]; intros Hnd Ha Hb Hxa Hxb; [destruct Ha|].
  apply NoDup_app in Hnd as (Hc & Hdis & Hl).
  assert (Hin : forall d, In d l -> In x (f d) -> x ∈ flat_map f l).
  { intros d Hd Hx. apply list_elem_of_In, in_flat_map. eauto. }
  destruct Ha as [->|Ha], Hb as [->|Hb].
  - reflexivity.
  - exfalso. apply (Hdis x); [now apply list_elem_of_In|eauto].
  - exfalso. apply (Hdis x); [now apply list_elem_of_In|eauto].
  - now apply IH.
Qed.

Lemma flat_map_nodup_each {A B : Type} (f : A -> list B) (l : list A) (a : A) :
  NoDup (flat_map f l) -> In a l -> NoDup (f a).
Proof.
  induction l as [|c l IH]; cbn [flat_map]; intros Hnd Ha; [destruct Ha|].
  apply NoDup_app in Hnd as (Hc & _ & Hl).
  destruct Ha as [->|Ha]; [exact Hc|now apply IH].
Qed.

Lemma key_ops_positions (table : offset_table) (key : string) (val : Z) (e : offsets) :
  is_ignored key = false -> table_get table key = Some e ->
  map fst (key_ops table key val) = entry_ips (key, e).
Proof.
  intros Hi Hg. unfold key_ops, entry_ips. rewrite Hi, Hg. cbn [fst snd].
  rewrite map_map. reflexivity.
Qed.

Lemma flat_ops_nodup (table : offset_table) (updates : list (string * Z)) :
  NoDup (table_ips table) -> NoDup (map fst updates) ->
  NoDup (map fst (flat_ops table updates)).
Proof.
  intros Ht. induction updates as [|[key val] updates IH]; intros Hu; [constructor|].
  cbn [map fst] in Hu. apply NoDup_cons in Hu as [Hfresh Hu].
  cbn [flat_ops flat_map fst snd]. rewrite map_app. apply NoDup_app.
  split; [|split; [|now apply IH]].
  - unfold key_ops. destruct (is_ignored key) eqn:Hi; [constructor|].
    destruct (table_get table key) as [e|] eqn:Hg; [|constructor].
    rewrite map_map. cbn [fst].
    apply (flat_map_nodup_each entry_ips table (key, e) Ht).
    now apply table_get_In.
  - intros p Hp Hp'. apply list_elem_of_In in Hp, Hp'.
    apply in_map_iff in Hp as (o & <- & Ho).
    apply in_map_iff in Hp' as (o' & Heq & Ho').
    apply in_key_ops in Ho as (Hi & e & off & Hg & Hoff & ->).
    apply in_flat_ops in Ho' as (k' & v' & e' & off' & Hin' & Hi' & Hg' & Hoff' & ->).
    cbn [fst] in Heq.
    assert (E : (key, e) = (k', e')).
    { apply (flat_map_nodup_apart entry_ips table (key, e) (k', e')
               (off + String.length key)%nat Ht).
      - now apply table_get_In.
      - now apply table_get_In.
      - unfold entry_ips. cbn [fst snd]. apply in_map_iff. eauto.
      - unfold entry_ips. cbn [fst snd]. apply in_map_iff. eauto. }
    injection E as -> _. apply Hfresh.
    apply list_elem_of_In. apply in_map_iff. exists (k', v'). auto.
Qed.

Lemma distinctb_sound (l : list nat) : distinctb l = true -> NoDup l.
Proof.
  induction l as [|x r IH]; cbn [distinctb]; intros H; [constructor|].
  apply andb_true_iff in H as [Hx Hr]. constructor; [|now apply IH].
  intros Hin. apply list_elem_of_In in Hin.
  rewrite forallb_forall in Hx. specialize (Hx x Hin).
  now rewrite Nat.eqb_refl in Hx.
Qed.

Lemma table_ips_nodup : NoDup (table_ips physical_constraints_offsets).
Proof. apply distinctb_sound. vm_compute. reflexivity. Qed.

Lemma window_after_patch (jsb jsb' : list byte)
  (updates : list (string * Z)) (out : list message) :
  NoDup (map fst updates) ->
  patch_physical_constraints jsb updates = Ok (jsb', out) ->
  forall key val e off,
    In (key, val) updates -> is_ignored key = false ->
    table_get physical_constraints_offsets key = Some e ->
    In off (occurrences e) ->
    jsb !! (off + String.length key)%nat = Some x02 ->
    slice jsb' (off + String.length key + 1) (off + String.length key + 5) =
      le_bytes 4 val.
Proof.
  intros Hnd P key val e off Hin Hi Hg Hoff Hind.
  pose proof (patch_buf physical_constraints_offsets jsb updates) as B.
  unfold patch_physical_constraints in P. rewrite P in B. cbn in B. symmetry in B.
  replace (off + String.length key + 5)%nat
    with (off + String.length key + 1 + length (le_bytes 4 val))%nat
    by (rewrite length_le_bytes; lia).
  apply slice_of_lookups. rewrite length_le_bytes. intros j Hj.
  apply (run_ops_final _ table_stable (flat_ops physical_constraints_offsets updates)
           jsb jsb' (off + String.length key)%nat val); auto.
  - apply flat_ops_in_table.
  - apply flat_ops_nodup; [exact table_ips_nodup|exact Hnd].
  - apply in_flat_ops. exists key, val, e, off. auto 10.
Qed.

(** X3. After a successful patch against the table of the module, with no key
    edited twice: for every edited tracked field, each occurrence whose
    indicator byte was the int32 marker holds, in the four bytes after the
    indicator, the little-endian bytes of the new value. *)
Theorem patched_windows_hold_values (jsb jsb' : list byte)
  (updates : list (string * Z)) (out : list message) :
  NoDup (map fst updates) ->
  patch_physical_constraints jsb updates = Ok (jsb', out) ->
  forall key val e off,
    In (key, val) updates -> is_ignored key = false ->
    table_get physical_constraints_offsets key = Some e ->
    In off (occurrences e) ->
    jsb !! (off + String.length key)%nat = Some x02 ->
    slice jsb' (off + String.length key + 1) (off + String.length key + 5) =
      le_bytes 4 val.
Proof. exact (window_after_patch jsb jsb' updates out). Qed.

Lemma patched_windows_hold_values_witness :
  slice (repeat x00 2834 ++ [x02; x2c; x01; x00; x00] ++ repeat x00 3000)
        (0xB08 + String.length "walk_speed" + 1)
        (0xB08 + String.length "walk_speed" + 5) = le_bytes 4 300.
Proof.
  apply (patched_windows_hold_values
           (repeat x00 2834 ++ [x02; x09; x09; x09; x09] ++ repeat x00 3000)
           (repeat x00 2834 ++ [x02; x2c; x01; x00; x00] ++ repeat x00 3000)
           [("walk_speed"%string, 300)]
           [IndicatorWarning "walk_speed" x00]
           ltac:(repeat constructor; cbn; intros H; inversion H)
           ltac:(vm_compute; reflexivity)
           "walk_speed"%string 300 (entry 0xB08 0x160B) 0xB08%nat).
  - left. reflexivity.
  - reflexivity.
  - reflexivity.
  - left. reflexivity.
  - reflexivity.
Defined.

(** X4. Patching with the values the buffer already holds changes nothing: when
    every occurrence of every edited tracked field lies inside the buffer
    and, where its indicator is the int32 marker, has the four bytes that
    spell the new value as an unsigned little-endian integer, the patched
    buffer is the input buffer. *)
Theorem patch_same_values_identity (table : offset_table) (jsb : list byte)
  (updates : list (string * Z)) :
  (forall key val e off,
     In (key, val) updates -> is_ignored key = false ->
     table_get table key = Some e -> In off (occurrences e) ->
     exists ind, jsb !! (off + String.length key)%nat = Some ind /\
       (ind = x02 ->
        (off + String.length key + 5 <= length jsb)%nat /\
        from_bytes (slice jsb (off + String.length key + 1)
                              (off + String.length key + 5)) = val)) ->
  fst <$> patch table jsb updates = Ok jsb.
Proof.
  intros H. rewrite patch_buf.
  assert (Hops : Forall (fun o => exists ind, jsb !! o.1 = Some ind /\
                   (ind = x02 -> (o.1 + 5 <= length jsb)%nat /\
                      from_bytes (slice jsb (o.1 + 1) (o.1 + 5)) = o.2))
                   (flat_ops table updates)).
  { apply List.Forall_forall. intros o Ho.
    apply in_flat_ops in Ho as (key & val & e & off & Hin & Hi & Hg & Hoff & ->).
    exact (H key val e off Hin Hi Hg Hoff). }
  clear H. induction Hops as [|[p v] ops (ind & Hp & Hv) _ IH]; [reflexivity|].
  cbn [fst snd] in *. cbn [run_ops].
  assert (W : write_op (p, v) jsb = Ok jsb); [|now rewrite W].
  unfold write_op, getitem. cbn [fst snd]. rewrite Hp. result_simpl.
  destruct (byte_val ind =? 2) eqn:T; cbn [negb]; [|reflexivity].
  apply byte_val_is_2 in T. destruct (Hv T) as [Hlen Hval].
  set (bs := slice jsb (p + 1) (p + 5)) in *.
  assert (Hl : length bs = 4%nat).
  { unfold bs, slice. rewrite length_take, length_drop. lia. }
  assert (Hle : le_bytes 4 v = bs).
  { rewrite <- Hval, <- Hl. apply le_bytes_from_bytes. }
  rewrite to_bytes_Some.
  - f_equal. rewrite Hle. replace (p + 1 + 4)%nat with (p + 1 + length bs)%nat by lia.
    apply slice_assign_same. rewrite Hl. unfold bs. f_equal. lia.
  - rewrite <- Hval. pose proof (from_bytes_range bs) as R. now rewrite Hl in R.
Qed.

Lemma patch_same_values_identity_witness :
  fst <$> patch_physical_constraints
            (repeat x00 2834 ++ [x02; x2c; x01; x00; x00] ++ repeat x00 3000)
            [("walk_speed"%string, 300)] =
  Ok (repeat x00 2834 ++ [x02; x2c; x01; x00; x00] ++ repeat x00 3000).
Proof.
  apply (patch_same_values_identity physical_constraints_offsets
           (repeat x00 2834 ++ [x02; x2c; x01; x00; x00] ++ repeat x00 3000)
           [("walk_speed"%string, 300)]).
  intros key val e off [[= <- <-]|[]] _ [= <-] [<-|[<-|[]]].
  - exists x02. split; [reflexivity|]. intros _.
    split; [apply Nat.leb_le; vm_compute; reflexivity|reflexivity].
  - exists x00. split; [reflexivity|]. intros [=].
Defined.

End PatcherRuns.

(** ** The physical-constraints decoder *)

Module DecoderSpec.
Import Patcher Physics TableLayout PhysicsTools SliceFacts.

(** *** The indicator search *)

Lemma ascii_run_spec (l : list byte) (k : nat) :
  ascii_run l = k <->
  (forall i, (i < k)%nat -> exists c, l !! i = Some c /\ _ASCII_OK c = true) /\
  (forall c, l !! k = Some c -> _ASCII_OK c = false).
Proof.
  revert k. induction l as [|b l IH]; intros k; cbn [ascii_run].
  - split.
    + intros <-. split; [lia|]. intros c H. discriminate.
    + intros [H _]. destruct k as [|k]; [reflexivity|].
      destruct (H 0%nat ltac:(lia)) as (c & Hc & _). discriminate.
  - destruct (_ASCII_OK b) eqn:Hb.
    + split.
      * intros <-. destruct (proj1 (IH (ascii_run l)) eq_refl) as [H1 H2]. split.
        -- intros [|i] Hi; [exists b; auto|]. apply (H1 i). lia.
        -- intros c Hc. apply (H2 c). exact Hc.
      * intros [H1 H2]. destruct k as [|k].
        -- specialize (H2 b eq_refl). congruence.
        -- f_equal. apply IH. split.
           ++ intros i Hi. apply (H1 (S i)). lia.
           ++ intros c Hc. apply (H2 c). exact Hc.
    + split.
      * intros <-. split; [lia|]. intros c [= <-]. exact Hb.
      * intros [H1 _]. destruct k as [|k]; [reflexivity|].
        destruct (H1 0%nat ltac:(lia)) as (c & [= <-] & Hc). congruence.
Qed.

Lemma find_indicator_iff (jsb : list byte) (pos r : nat) :
  _find_indicator jsb pos = r <->
  (pos <= r)%nat /\
  (forall x, (pos <= x < r)%nat -> exists c, jsb !! x = Some c /\ _ASCII_OK c = true) /\
  (forall c, jsb !! r = Some c -> _ASCII_OK c = false).
Proof.
  unfold _find_indicator. split.
  - intros <-. destruct (proj1 (ascii_run_spec (drop pos jsb) _) eq_refl) as [H1 H2].
    split; [lia|]. split.
    + intros x Hx. destruct (H1 (x - pos)%nat ltac:(lia)) as (c & Hc & Hok).
      rewrite lookup_drop in Hc. replace (pos + (x - pos))%nat with x in Hc by lia. eauto.
    + intros c Hc. apply (H2 c). now rewrite lookup_drop.
  - intros (Hle & H1 & H2).
    assert (E : ascii_run (drop pos jsb) = (r - pos)%nat); [|lia].
    apply ascii_run_spec. split.
    + intros i Hi. rewrite lookup_drop. apply H1. lia.
    + intros c. rewrite lookup_drop. replace (pos + (r - pos))%nat with r by lia. apply H2.
Qed.

(** The search reads the buffer from [pos] to its result only. *)
Lemma find_indicator_local (jsb jsb' : list byte) (pos r : nat) :
  _find_indicator jsb pos = r ->
  (forall x, (pos <= x <= r)%nat -> jsb' !! x = jsb !! x) ->
  _find_indicator jsb' pos = r.
Proof.
  intros H Hsame. apply find_indicator_iff in H as (Hle & H1 & H2).
  apply find_indicator_iff. split; [exact Hle|]. split.
  - intros x Hx. rewrite Hsame by lia. now apply H1.
  - intros c. rewrite Hsame by lia. apply H2.
Qed.

(** X5. [_find_indicator jsb pos] is the first position at or after [pos] that
    holds no byte of [_ASCII_OK]: every byte from [pos] up to it is a letter,
    a digit or an underscore, and the byte at it, if there is one, is not. *)
Theorem find_indicator_spec (jsb : list byte) (pos r : nat) :
  _find_indicator jsb pos = r <->
  (pos <= r)%nat /\
  (forall x, (pos <= x < r)%nat -> exists c, jsb !! x = Some c /\ _ASCII_OK c = true) /\
  (forall c, jsb !! r = Some c -> _ASCII_OK c = false).
Proof. exact (find_indicator_iff jsb pos r). Qed.

(** *** What [_grab] returns *)

Lemma int_size_cases (ind : byte) :
  _int_size ind =
    if decide (ind = x02) then Some 4%nat
    else if decide (128 <= byte_val ind /\ byte_val ind mod 16 = 2) then Some 1%nat
    else None.
Proof. destruct ind; vm_compute; reflexivity. Qed.

Lemma grab_cases (jsb : list byte) (key : string) (loc : nat) (ind : byte) :
  let p := _find_indicator jsb loc in
  jsb !! p = Some ind ->
  _grab jsb key (Some loc) =
    Ok (if decide (ind = x02) then
          if decide (p + 5 <= length jsb)%nat
          then Some (from_bytes (slice jsb (p + 1) (p + 5))) else None
        else if decide (128 <= byte_val ind /\ byte_val ind mod 16 = 2) then
          byte_val <$> jsb !! (p + 1)%nat
        else None).
Proof.
  intros p Hp. unfold _grab, getitem. fold p. rewrite Hp. result_simpl.
  rewrite int_size_cases. pose proof (lookup_lt_Some _ _ _ Hp) as Hlt.
  destruct (decide (ind = x02)) as [->|Hne].
  - rewrite length_slice. replace (p + 1 + 4)%nat with (p + 5)%nat by lia.
    destruct (decide (p + 5 <= length jsb)%nat).
    + replace (Nat.min (p + 5 - (p + 1)) (length jsb - (p + 1))) with 4%nat by lia.
      reflexivity.
    + destruct (Nat.eqb_spec (Nat.min (p + 5 - (p + 1)) (length jsb - (p + 1))) 4);
        [lia|reflexivity].
  - destruct (decide (128 <= byte_val ind /\ byte_val ind mod 16 = 2)); [|reflexivity].
    rewrite length_slice.
    destruct (jsb !! (p + 1)%nat) as [b|] eqn:Hb.
    + pose proof (lookup_lt_Some _ _ _ Hb) as Hb'.
      replace (Nat.min (p + 1 + 1 - (p + 1)) (length jsb - (p + 1))) with 1%nat by lia.
      cbn [Nat.eqb negb fmap option_fmap option_map]. do 2 f_equal.
      unfold slice. replace (p + 1 + 1 - (p + 1))%nat with 1%nat by lia.
      rewrite (drop_S _ b _ Hb). cbn [take firstn from_bytes].
      rewrite take_0. cbn [from_bytes]. lia.
    + apply lookup_ge_None in Hb.
      replace (Nat.min (p + 1 + 1 - (p + 1)) (length jsb - (p + 1))) with 0%nat by lia.
      reflexivity.
Qed.

(** X6. [_grab] raises (IndexError) exactly when the indicator search runs to
    the end of the buffer.  Otherwise: after the int32 marker it reads the
    next four bytes as an unsigned little-endian integer; after a compressed
    indicator (top bit set, low nibble 2) it reads the next byte; a value cut
    by the end of the buffer and any other indicator give [None].  A value
    it returns is never negative and is below 2^32. *)
Theorem grab_outcomes (jsb : list byte) (key : string) (loc : nat) :
  let p := _find_indicator jsb loc in
  ((length jsb <= p)%nat <-> _grab jsb key (Some loc) = Raise IndexError) /\
  (forall ind, jsb !! p = Some ind ->
     _grab jsb key (Some loc) =
       Ok (if decide (ind = x02) then
             if decide (p + 5 <= length jsb)%nat
             then Some (from_bytes (slice jsb (p + 1) (p + 5))) else None
           else if decide (128 <= byte_val ind /\ byte_val ind mod 16 = 2) then
             byte_val <$> jsb !! (p + 1)%nat
           else None)) /\
  (forall v, _grab jsb key (Some loc) = Ok (Some v) -> 0 <= v < 2 ^ 32).
Proof.
  intros p. pose proof (grab_cases jsb key loc) as Hcases. cbv zeta in Hcases.
  fold p in Hcases.
  split; [|split; [exact Hcases|]].
  - split.
    + intros Hlen. unfold _grab, getitem. fold p.
      now rewrite (proj2 (lookup_ge_None jsb p) Hlen).
    + intros H. destruct (jsb !! p) as [ind|] eqn:Hp; [|now apply lookup_ge_None].
      rewrite (Hcases ind eq_refl) in H. discriminate.
  - intros v H. destruct (jsb !! p) as [ind|] eqn:Hp.
    + rewrite (Hcases ind eq_refl) in H. injection H as H.
      destruct (decide (ind = x02)).
      * destruct (decide (p + 5 <= length jsb)%nat); [|discriminate].
        injection H as <-.
        pose proof (from_bytes_range (slice jsb (p + 1) (p + 5))) as R.
        rewrite length_slice in R.
        replace (Nat.min (p + 5 - (p + 1)) (length jsb - (p + 1))) with 4%nat in R by lia.
        exact R.
      * destruct (decide (128 <= byte_val ind /\ byte_val ind mod 16 = 2));
          [|discriminate].
        destruct (jsb !! (p + 1)%nat) as [b|]; cbn in H; [|discriminate].
        injection H as <-. pose proof (byte_val_range b). lia.
    + unfold _grab, getitem in H. fold p in H. rewrite Hp in H. result_simpl.
      discriminate.
Qed.

(** *** What [decode_physical_constraints] puts in the two objects *)

Lemma table_get_absent (t : offset_table) (key : string) :
  ~ In key (map fst t) -> table_get t key = None.
Proof.
  induction t as [|[k e] t IH]; cbn; [reflexivity|]. intros H.
  destruct (String.eqb key k) eqn:E.
  - apply String.eqb_eq in E. subst. exfalso. apply H. now left.
  - apply IH. intros Hin. apply H. now right.
Qed.

Lemma decode_loop_values (jsb : list byte) (t : offset_table)
  (objs objs' : gmap string Z * gmap string Z) (key : string) :
  NoDup (map fst t) ->
  decode_loop jsb t objs = Ok objs' ->
  match (if is_ignored key then None else table_get t key) with
  | None => objs'.1 !! key = objs.1 !! key /\ objs'.2 !! key = objs.2 !! key
  | Some e =>
    exists r1 r2,
      _grab jsb key (loc e) = Ok r1 /\ _grab jsb key (loc2 e) = Ok r2 /\
      objs'.1 !! key = stored r1 (objs.1 !! key) /\
      objs'.2 !! key = stored r2 (objs.2 !! key)
  end.
Proof.
  revert objs. induction t as [|[k offs] t IH]; intros objs Hnd H.
  - cbn in H. injection H as <-. destruct (is_ignored key); cbn; auto.
  - cbn [map fst] in Hnd. apply NoDup_cons in Hnd as [Hfresh Hnd].
    cbn [decode_loop] in H. cbn [table_get].
    destruct (is_ignored k) eqn:Hk.
    + specialize (IH objs Hnd H).
      destruct (String.eqb key k) eqn:E.
      * apply String.eqb_eq in E. subst k. rewrite Hk in *. exact IH.
      * exact IH.
    + destruct (_grab jsb k (loc offs)) as [r1|] eqn:G1; result_simpl; [|discriminate].
      destruct (_grab jsb k (loc2 offs)) as [r2|] eqn:G2; result_simpl; [|discriminate].
      specialize (IH _ Hnd H). cbn [fst snd] in IH.
      destruct (String.eqb key k) eqn:E.
      * apply String.eqb_eq in E. subst k. rewrite Hk in *.
        rewrite table_get_absent in IH
          by (intros Hin; apply Hfresh; now apply list_elem_of_In).
        destruct IH as [I1 I2]. exists r1, r2. rewrite I1, I2.
        split; [exact G1|]. split; [exact G2|].
        split; [destruct r1|destruct r2]; cbn; try reflexivity;
          now rewrite lookup_insert_eq.
      * apply String.eqb_neq in E.
        assert (L1 : forall (r : option Z) (m : gmap string Z),
                  match r with Some v => <[k:=v]> m | None => m end !! key = m !! key).
        { intros [v|] m; [|reflexivity]. apply lookup_insert_ne. congruence. }
        rewrite !L1 in IH. exact IH.
Qed.

Lemma distinct_keysb_sound (l : list string) : distinct_keysb l = true -> NoDup l.
Proof.
  induction l as [|x r IH]; cbn [distinct_keysb]; intros H; [constructor|].
  apply andb_true_iff in H as [Hx Hr]. constructor; [|now apply IH].
  intros Hin. apply list_elem_of_In in Hin.
  rewrite forallb_forall in Hx. specialize (Hx x Hin).
  now rewrite String.eqb_refl in Hx.
Qed.

Lemma table_keys_nodup : NoDup (map fst physical_constraints_offsets).
Proof. apply distinct_keysb_sound. vm_compute. reflexivity. Qed.

(** X7. When [decode_physical_constraints] returns: a key that is ignored or
    absent from the table is in neither object; for every other key of the
    table, the first object holds what [_grab] reads at "loc" and the second
    what it reads at "loc2" (no entry where [_grab] gives [None]). *)
Theorem decoded_values (jsb : list byte) (obj1 obj2 : gmap string Z) (key : string) :
  decode_physical_constraints jsb = Ok (obj1, obj2) ->
  (is_ignored key = true \/ table_get physical_constraints_offsets key = None ->
     obj1 !! key = None /\ obj2 !! key = None) /\
  (forall e, is_ignored key = false ->
     table_get physical_constraints_offsets key = Some e ->
     _grab jsb key (loc e) = Ok (obj1 !! key) /\
     _grab jsb key (loc2 e) = Ok (obj2 !! key)).
Proof.
  unfold decode_physical_constraints. generalize physical_constraints_offsets
    table_keys_nodup. intros t Hnd D.
  pose proof (decode_loop_values jsb t (∅, ∅) (obj1, obj2) key Hnd D) as H.
  cbn [fst snd] in H. rewrite !lookup_empty in H. split.
  - intros [Hi|Hg].
    + rewrite Hi in H. exact H.
    + rewrite Hg in H. destruct (is_ignored key); exact H.
  - intros e Hi Hg. rewrite Hi, Hg in H.
    destruct H as (r1 & r2 & G1 & G2 & E1 & E2).
    rewrite E1, E2, G1, G2. split; [destruct r1|destruct r2]; reflexivity.
Qed.

Lemma decoded_values_witness :
  _grab Sample.two_copies "walk_speed" (Some 0xB08%nat) = Ok (Some 100) /\
  _grab Sample.two_copies "walk_speed" (Some 0x160B%nat) = Ok (Some 200).
Proof.
  assert (D : decode_physical_constraints Sample.two_copies =
              Ok (({["walk_speed"%string := 100]} : gmap string Z),
                  ({["walk_speed"%string := 200]} : gmap string Z)))
    by (vm_compute; reflexivity).
  destruct (decoded_values Sample.two_copies _ _ "walk_speed"%string D) as [_ H].
  apply (H (entry 0xB08 0x160B)); reflexivity.
Defined.

(** *** Comparing the two copies *)

Lemma in_insert_key (k x : string) (l : list string) :
  In x (insert_key k l) <-> x = k \/ In x l.
Proof.
  induction l as [|h t IH]; cbn [insert_key].
  - cbn. intuition.
  - destruct (String.leb k h); cbn [In]; [intuition|]. rewrite IH. intuition.
Qed.

Lemma in_sorted (x : string) (l : list string) : In x (sorted l) <-> In x l.
Proof.
  unfold sorted. induction l as [|h t IH]; cbn [foldr]; [reflexivity|].
  rewrite in_insert_key, IH. cbn. intuition.
Qed.

Lemma is_ignoredb_spec (k : string) (ignored : list string) :
  existsb (String.eqb k) ignored = true <-> In k ignored.
Proof.
  rewrite existsb_exists. split.
  - intros (x & Hx & E). apply String.eqb_eq in E. now subst.
  - intros H. exists k. split; [exact H|apply String.eqb_refl].
Qed.

Lemma compare_loop_spec (obj1 obj2 : gmap string Z) (ignored keys : list string)
  (ok0 : bool) (out0 : list (string * option Z * option Z)) :
  compare_loop obj1 obj2 ignored keys (ok0, out0) =
  (ok0 && forallb (fun k => existsb (String.eqb k) ignored ||
                            bool_decide (obj1 !! k = obj2 !! k)) keys,
   out0 ++ flat_map (fun k =>
             if existsb (String.eqb k) ignored || bool_decide (obj1 !! k = obj2 !! k)
             then [] else [(k, obj1 !! k, obj2 !! k)]) keys).
Proof.
  revert ok0 out0. induction keys as [|k keys IH]; intros ok0 out0.
  - cbn. now rewrite andb_true_r, app_nil_r.
  - cbn [compare_loop forallb flat_map].
    destruct (existsb (String.eqb k) ignored); cbn [orb].
    + rewrite IH. reflexivity.
    + destruct (bool_decide (obj1 !! k = obj2 !! k)); cbn [negb].
      * rewrite IH. reflexivity.
      * rewrite IH. cbn [fst snd andb]. rewrite andb_false_r. now rewrite <- app_assoc.
Qed.

Lemma compare_outcome (jsb : list byte) (ignored : option (list string))
  (obj1 obj2 : gmap string Z) :
  decode_physical_constraints jsb = Ok (obj1, obj2) ->
  let ign := match ignored with None => default_ignored | Some s => s end in
  exists ok diffs,
    compare_jsb_copies jsb ignored = Ok (ok, diffs) /\
    (ok = true <-> forall k, ~ In k ign -> obj1 !! k = obj2 !! k) /\
    (forall k v1 v2, In (k, v1, v2) diffs <->
       ~ In k ign /\ v1 = obj1 !! k /\ v2 = obj2 !! k /\ v1 <> v2).
Proof.
  intros D ign. unfold compare_jsb_copies. rewrite D. result_simpl.
  fold ign. rewrite compare_loop_spec. cbn [andb app].
  eexists. eexists. split; [reflexivity|].
  assert (Hkeys : forall k, ~ In k (sorted (elements (dom obj1 ∪ dom obj2))) ->
                    obj1 !! k = obj2 !! k).
  { intros k Hk. rewrite in_sorted, <- list_elem_of_In, elem_of_elements in Hk.
    rewrite elem_of_union, !elem_of_dom in Hk.
    destruct (obj1 !! k) eqn:E1, (obj2 !! k) eqn:E2; try reflexivity;
      exfalso; apply Hk; eauto. }
  split.
  - rewrite forallb_forall. split.
    + intros H k Hk.
      destruct (in_dec string_dec k (sorted (elements (dom obj1 ∪ dom obj2))))
        as [Hin|Hin]; [|now apply Hkeys].
      specialize (H k Hin). apply orb_true_iff in H as [H|H].
      * apply is_ignoredb_spec in H. contradiction.
      * now apply bool_decide_eq_true in H.
    + intros H k _. apply orb_true_iff.
      destruct (existsb (String.eqb k) ign) eqn:E; [now left|right].
      apply bool_decide_eq_true. apply H. intros Hin.
      apply is_ignoredb_spec in Hin. congruence.
  - intros k v1 v2. rewrite in_flat_map. split.
    + intros (k' & _ & Hin).
      destruct (existsb (String.eqb k') ign) eqn:E; cbn [orb] in Hin; [destruct Hin|].
      destruct (bool_decide (obj1 !! k' = obj2 !! k')) eqn:B; [destruct Hin|].
      destruct Hin as [[= -> <- <-]|[]]. apply bool_decide_eq_false in B.
      split; [|auto]. intros Hin. apply is_ignoredb_spec in Hin. congruence.
    + intros (Hn & -> & -> & Hne). exists k.
      assert (E : existsb (String.eqb k) ign = false).
      { destruct (existsb (String.eqb k) ign) eqn:E; [|reflexivity].
        apply is_ignoredb_spec in E. contradiction. }
      split.
      * destruct (in_dec string_dec k (sorted (elements (dom obj1 ∪ dom obj2))))
          as [Hin|Hin]; [exact Hin|]. exfalso. apply Hne. now apply Hkeys.
      * rewrite E. cbn [orb]. rewrite bool_decide_eq_false_2 by exact Hne. now left.
Qed.

(** X8. [compare_jsb_copies] returns True exactly when the two decoded objects
    agree on every key outside [ignored], and prints one "[DIFF]" line, with
    the two values, for each key outside [ignored] on which they differ. *)
Theorem compare_copies_spec (jsb : list byte) (ignored : option (list string))
  (obj1 obj2 : gmap string Z) :
  decode_physical_constraints jsb = Ok (obj1, obj2) ->
  let ign := match ignored with None => default_ignored | Some s => s end in
  exists ok diffs,
    compare_jsb_copies jsb ignored = Ok (ok, diffs) /\
    (ok = true <-> forall k, ~ In k ign -> obj1 !! k = obj2 !! k) /\
    (forall k v1 v2, In (k, v1, v2) diffs <->
       ~ In k ign /\ v1 = obj1 !! k /\ v2 = obj2 !! k /\ v1 <> v2).
Proof. exact (compare_outcome jsb ignored obj1 obj2). Qed.

Lemma compare_copies_spec_witness :
  exists ok diffs,
    compare_jsb_copies Sample.two_copies None = Ok (ok, diffs) /\
    (ok = true <->
     forall k, ~ In k default_ignored ->
       ({["walk_speed"%string := 100]} : gmap string Z) !! k =
       ({["walk_speed"%string := 200]} : gmap string Z) !! k) /\
    (forall k v1 v2, In (k, v1, v2) diffs <->
       ~ In k default_ignored /\
       v1 = ({["walk_speed"%string := 100]} : gmap string Z) !! k /\
       v2 = ({["walk_speed"%string := 200]} : gmap string Z) !! k /\ v1 <> v2).
Proof.
  assert (D : decode_physical_constraints Sample.two_copies =
              Ok (({["walk_speed"%string := 100]} : gmap string Z),
                  ({["walk_speed"%string := 200]} : gmap string Z)))
    by (vm_compute; reflexivity).
  exact (compare_copies_spec Sample.two_copies None _ _ D).
Defined.

End DecoderSpec.

(** ** The patcher and the decoder together *)

Module PatchDecode.
Import Patcher Physics TableLayout PatcherSpec SliceFacts PatcherRuns DecoderSpec.

Lemma text_clearb_sound (ips : list nat) (ke : string * offsets) (off p x : nat) :
  text_clearb ips ke = true -> In off (occurrences ke.2) -> In p ips ->
  in_window p x -> (off <= x < off + String.length ke.1)%nat -> False.
Proof.
  unfold text_clearb, in_window. intros H Hoff Hp Hw Ho.
  rewrite forallb_forall in H. specialize (H off Hoff).
  rewrite forallb_forall in H. specialize (H p Hp).
  apply orb_true_iff in H as [H|H].
  - apply Nat.ltb_lt in H. lia.
  - apply Nat.leb_le in H. lia.
Qed.

(** In the table of the module a value window meets the text of a tracked
    key for the keys of [overlapped], and for no other. *)
Lemma table_text_clear :
  forallb (fun ke => is_ignored ke.1 ||
                     Bool.eqb (text_clearb (table_ips physical_constraints_offsets) ke)
                              (negb (overlapped ke.1)))
    physical_constraints_offsets = true.
Proof. vm_compute. reflexivity. Qed.

(** A patch leaves the text and the indicator byte of every occurrence of
    such a key as they were. *)
Lemma patch_keeps_key_text (jsb jsb' : list byte) (updates : list (string * Z))
  (out : list message) (key : string) (e : offsets) (off x : nat) :
  patch_physical_constraints jsb updates = Ok (jsb', out) ->
  is_ignored key = false -> overlapped key = false ->
  table_get physical_constraints_offsets key = Some e -> In off (occurrences e) ->
  (off <= x <= off + String.length key)%nat -> jsb' !! x = jsb !! x.
Proof.
  intros P Hi Hov Hg Hoff Hx.
  pose proof (patch_buf physical_constraints_offsets jsb updates) as B.
  unfold patch_physical_constraints in P. rewrite P in B. cbn in B. symmetry in B.
  apply table_get_In in Hg.
  destruct (run_ops_frame _ table_stable _ _ _ x (flat_ops_in_table _ updates) B)
    as [E|(o & Ho & _ & Hw)]; [exact E|exfalso].
  pose proof (flat_ops_in_table physical_constraints_offsets updates) as Hops.
  rewrite List.Forall_forall in Hops. specialize (Hops o Ho).
  destruct (Nat.eq_dec x (off + String.length key)%nat) as [->|Hne].
  - apply (table_stable o.1 (off + String.length key)%nat Hops); [|exact Hw].
    unfold table_ips. apply in_flat_map. exists (key, e). split; [exact Hg|].
    unfold entry_ips. cbn [fst snd]. apply in_map_iff. eauto.
  - pose proof table_text_clear as T. rewrite forallb_forall in T.
    specialize (T _ Hg). cbn [fst] in T. rewrite Hi, Hov in T. cbn [orb negb] in T.
    apply Bool.eqb_prop in T.
    apply (text_clearb_sound _ (key, e) off o.1 x T); cbn [fst snd]; auto.
    lia.
Qed.

(** X9. What the decoder reads where the patcher wrote.  After a successful
    patch against the table of the module, with no key edited twice: for an
    edited tracked field other than "min_delay_for_shirt_tug_receive" and
    "moderate_jog_speed" (the two whose text lies in the value window of
    another occurrence of the table) and an occurrence of it at which, in
    the input buffer, the indicator search of the decoder stops at
    offset + len(key), the byte there is the int32 marker and the four bytes
    after it lie inside the buffer, [_grab] on the patched buffer returns the
    new value. *)
Theorem patch_then_grab (jsb jsb' : list byte) (updates : list (string * Z))
  (out : list message) (key : string) (val : Z) (e : offsets) (off : nat) :
  NoDup (map fst updates) ->
  patch_physical_constraints jsb updates = Ok (jsb', out) ->
  In (key, val) updates -> is_ignored key = false -> overlapped key = false ->
  table_get physical_constraints_offsets key = Some e ->
  In off (occurrences e) ->
  _find_indicator jsb off = (off + String.length key)%nat ->
  jsb !! (off + String.length key)%nat = Some x02 ->
  (off + String.length key + 5 <= length jsb)%nat ->
  _grab jsb' key (Some off) = Ok (Some val).
Proof.
  intros Hnd P Hin Hi Hov Hg Hoff Hfind Hind Hlen.
  set (ip := (off + String.length key)%nat) in *.
  assert (W : slice jsb' (ip + 1) (ip + 5) = le_bytes 4 val).
  { exact (window_after_patch jsb jsb' updates out Hnd P key val e off
             Hin Hi Hg Hoff Hind). }
  assert (Hval : 0 <= val < 2 ^ 32).
  { pose proof (patch_buf physical_constraints_offsets jsb updates) as B.
    unfold patch_physical_constraints in P. rewrite P in B. cbn in B. symmetry in B.
    assert (Hok : Forall (op_ok jsb) (flat_ops physical_constraints_offsets updates)).
    { apply (run_ops_ok_iff _ table_stable _ _ (flat_ops_in_table _ updates)). eauto. }
    rewrite List.Forall_forall in Hok.
    destruct (Hok (ip, val)) as (ind & Hp & Hr).
    - apply in_flat_ops. exists key, val, e, off. auto 10.
    - cbn [fst snd] in *. apply Hr. congruence. }
  assert (Hfind' : _find_indicator jsb' off = ip).
  { apply (find_indicator_local jsb jsb' off ip Hfind). intros x Hx.
    apply (patch_keeps_key_text jsb jsb' updates out key e off x P Hi Hov Hg Hoff).
    exact Hx. }
  assert (Hind' : jsb' !! ip = Some x02).
  { rewrite <- Hind.
    apply (patch_keeps_key_text jsb jsb' updates out key e off ip P Hi Hov Hg Hoff).
    unfold ip. lia. }
  assert (Hlen' : (ip + 5 <= length jsb')%nat).
  { apply (f_equal length) in W. rewrite length_slice, length_le_bytes in W. lia. }
  pose proof (grab_cases jsb' key off x02) as G. cbv zeta in G.
  rewrite Hfind' in G. rewrite (G Hind').
  destruct (decide (x02 = x02)) as [_|N]; [|contradiction].
  destruct (decide (ip + 5 <= length jsb')%nat) as [_|N]; [|contradiction].
  rewrite W, from_bytes_le_bytes. change (256 ^ Z.of_nat 4) with (2 ^ 32).
  now rewrite Z.mod_small.
Qed.

Lemma patch_then_grab_witness :
  exists jsb',
    patch_physical_constraints Sample.two_copies [("walk_speed"%string, 300)] =
      Ok (jsb', []) /\
    _grab jsb' "walk_speed" (Some 0xB08%nat) = Ok (Some 300) /\
    _grab jsb' "walk_speed" (Some 0x160B%nat) = Ok (Some 300).
Proof.
  destruct (patch_physical_constraints Sample.two_copies [("walk_speed"%string, 300)])
    as [[jsb' out]|err] eqn:P; [|vm_compute in P; discriminate].
  assert (Hout : out = []).
  { apply (f_equal (fmap snd)) in P. vm_compute in P. now injection P as <-. }
  subst out. exists jsb'. split; [reflexivity|].
  assert (Hnd : NoDup (map fst [("walk_speed"%string, 300)])).
  { cbn. apply NoDup_singleton. }
  split.
  - apply (patch_then_grab Sample.two_copies jsb' [("walk_speed"%string, 300)] []
             "walk_speed"%string 300 (entry 0xB08 0x160B) 0xB08%nat Hnd P).
    + left. reflexivity.
    + reflexivity.
    + reflexivity.
    + reflexivity.
    + left. reflexivity.
    + vm_compute. reflexivity.
    + reflexivity.
    + apply Nat.leb_le. vm_compute. reflexivity.
  - apply (patch_then_grab Sample.two_copies jsb' [("walk_speed"%string, 300)] []
             "walk_speed"%string 300 (entry 0xB08 0x160B) 0x160B%nat Hnd P).
    + left. reflexivity.
    + reflexivity.
    + reflexivity.
    + reflexivity.
    + right. left. reflexivity.
    + vm_compute. reflexivity.
    + reflexivity.
    + apply Nat.leb_le. vm_compute. reflexivity.
Defined.

End PatchDecode.

(** ** The integers of the ratings and weights decoders *)

Module IntegerSpec.
Import Ratings Weights SliceFacts.

(** *** [_read_varint] *)

Lemma varint_loop_raises (l : list byte) (res shift : Z) (p : nat) (e : exn) :
  varint_loop l res shift p = Raise e ->
  e = IndexError /\ Forall (fun b => 0x80 <= byte_val b) l.
Proof.
  revert res shift p. induction l as [|b l IH]; intros res shift p; cbn [varint_loop].
  - intros [= <-]. split; [reflexivity|constructor].
  - destruct (byte_val b <? 128) eqn:T; [discriminate|].
    intros H. apply IH in H as [-> F]. split; [reflexivity|].
    constructor; [|exact F]. apply Z.ltb_ge in T. exact T.
Qed.

Lemma varint_loop_returns (l : list byte) (res shift : Z) (p : nat) (v : Z) (p' : nat) :
  varint_loop l res shift p = Ok (v, p') ->
  exists k last,
    p' = (p + k + 1)%nat /\ l !! k = Some last /\ byte_val last < 0x80 /\
    forall i b, (i < k)%nat -> l !! i = Some b -> 0x80 <= byte_val b.
Proof.
  revert res shift p. induction l as [|b l IH]; intros res shift p; cbn [varint_loop];
    [discriminate|].
  destruct (byte_val b <? 128) eqn:T.
  - intros [= _ <-]. apply Z.ltb_lt in T. exists 0%nat, b.
    split; [lia|]. split; [reflexivity|]. split; [exact T|]. intros i c Hi. lia.
  - intros H. apply IH in H as (k & last & -> & Hk & Hlast & Hbefore).
    apply Z.ltb_ge in T. exists (S k), last.
    split; [lia|]. split; [exact Hk|]. split; [exact Hlast|].
    intros [|i] c Hi Hc.
    + injection Hc as <-. exact T.
    + apply (Hbefore i c); [lia|exact Hc].
Qed.

Lemma varint_loop_total (l : list byte) (res shift : Z) (p : nat) :
  Forall (fun b => 0x80 <= byte_val b) l ->
  varint_loop l res shift p = Raise IndexError.
Proof.
  intros F. revert res shift p. induction F as [|b l Hb F IH]; intros res shift p;
    cbn [varint_loop]; [reflexivity|].
  destruct (byte_val b <? 128) eqn:T; [apply Z.ltb_lt in T; lia|]. apply IH.
Qed.

Lemma zigzag_one_byte (b : byte) :
  byte_val b < 0x80 ->
  Z.lxor (Z.shiftr (Z.lor 0 (Z.shiftl (Z.land (byte_val b) 127) 0)) 1)
         (- Z.land (Z.lor 0 (Z.shiftl (Z.land (byte_val b) 127) 0)) 1) =
  if Z.even (byte_val b) then byte_val b / 2 else - ((byte_val b + 1) / 2).
Proof. destruct b; vm_compute; intros H; try reflexivity; discriminate H. Qed.

Lemma read_varint_facts (buf : list byte) (p : nat) :
  (_read_varint buf p = Raise IndexError <->
   forall x b, (p <= x)%nat -> buf !! x = Some b -> 0x80 <= byte_val b) /\
  (forall e, _read_varint buf p = Raise e -> e = IndexError) /\
  (forall v p', _read_varint buf p = Ok (v, p') ->
     (p < p' <= length buf)%nat /\
     (exists last, buf !! (p' - 1)%nat = Some last /\ byte_val last < 0x80) /\
     (forall x b, (p <= x < p' - 1)%nat -> buf !! x = Some b -> 0x80 <= byte_val b)) /\
  (forall b, buf !! p = Some b -> byte_val b < 0x80 ->
     _read_varint buf p =
       Ok (if Z.even (byte_val b) then byte_val b / 2 else - ((byte_val b + 1) / 2),
           (p + 1)%nat)).
Proof.
  unfold _read_varint. split; [|split; [|split]].
  - split.
    + intros H x b Hx Hb.
      destruct (varint_loop (drop p buf) 0 0 p) as [[r q]|e] eqn:V; result_simpl;
        [discriminate|].
      apply varint_loop_raises in V as [_ F]. rewrite List.Forall_forall in F.
      apply F. apply list_elem_of_In, list_elem_of_lookup. exists (x - p)%nat.
      rewrite lookup_drop. replace (p + (x - p))%nat with x by lia. exact Hb.
    + intros H. rewrite varint_loop_total; [reflexivity|].
      apply List.Forall_forall. intros b Hb.
      apply list_elem_of_In, list_elem_of_lookup in Hb as [i Hi].
      rewrite lookup_drop in Hi. apply (H (p + i)%nat b); [lia|exact Hi].
  - intros e. destruct (varint_loop (drop p buf) 0 0 p) as [[r q]|e'] eqn:V;
      result_simpl; [discriminate|].
    intros [= <-]. now apply varint_loop_raises in V.
  - intros v p'. destruct (varint_loop (drop p buf) 0 0 p) as [[r q]|e'] eqn:V;
      result_simpl; [|discriminate].
    intros [= _ <-].
    apply varint_loop_returns in V as (k & last & -> & Hk & Hlast & Hbefore).
    rewrite lookup_drop in Hk. pose proof (lookup_lt_Some _ _ _ Hk) as Hlt.
    split; [lia|]. split.
    + exists last. replace (p + k + 1 - 1)%nat with (p + k)%nat by lia. auto.
    + intros x b Hx Hb. apply (Hbefore (x - p)%nat b); [lia|].
      rewrite lookup_drop. replace (p + (x - p))%nat with x by lia. exact Hb.
  - intros b Hb Hlt. rewrite (drop_S _ b _ Hb). cbn [varint_loop].
    destruct (byte_val b <? 128) eqn:T; [|apply Z.ltb_ge in T; lia].
    result_simpl. now rewrite zigzag_one_byte.
Qed.

(** X10. [_read_varint] raises, and then IndexError, exactly when every byte
    from the start position on has its top bit set (no byte at all
    included).  When it returns, the new position is one past the first
    byte below 0x80 at or after the start.  A single byte [b] below 0x80 is
    decoded as b/2 when [b] is even and as -(b+1)/2 when it is odd. *)
Theorem read_varint_outcomes (buf : list byte) (p : nat) :
  (_read_varint buf p = Raise IndexError <->
   forall x b, (p <= x)%nat -> buf !! x = Some b -> 0x80 <= byte_val b) /\
  (forall e, _read_varint buf p = Raise e -> e = IndexError) /\
  (forall v p', _read_varint buf p = Ok (v, p') ->
     (p < p' <= length buf)%nat /\
     (exists last, buf !! (p' - 1)%nat = Some last /\ byte_val last < 0x80) /\
     (forall x b, (p <= x < p' - 1)%nat -> buf !! x = Some b -> 0x80 <= byte_val b)) /\
  (forall b, buf !! p = Some b -> byte_val b < 0x80 ->
     _read_varint buf p =
       Ok (if Z.even (byte_val b) then byte_val b / 2 else - ((byte_val b + 1) / 2),
           (p + 1)%nat)).
Proof. exact (read_varint_facts buf p). Qed.

(** *** [_le_i32] *)

(** X11. [_le_i32] raises struct.error on anything but four bytes; on four bytes
    it returns the value in [-2^31, 2^31) whose two's complement
    little-endian bytes they are, and every such value is read back from
    its bytes. *)
Theorem le_i32_outcomes (bs : list byte) :
  (length bs <> 4%nat -> _le_i32 bs = Raise StructError) /\
  (length bs = 4%nat ->
     exists v, _le_i32 bs = Ok v /\ - 2 ^ 31 <= v < 2 ^ 31 /\
               le_bytes 4 (v mod 2 ^ 32) = bs) /\
  (forall v, - 2 ^ 31 <= v < 2 ^ 31 -> _le_i32 (le_bytes 4 (v mod 2 ^ 32)) = Ok v).
Proof.
  unfold _le_i32. split; [|split].
  - intros H. destruct (decide (length bs = 4%nat)); [contradiction|reflexivity].
  - intros H. destruct (decide (length bs = 4%nat)); [|contradiction].
    pose proof (from_bytes_range bs) as R. rewrite H in R.
    change (256 ^ Z.of_nat 4) with (2 ^ 32) in R.
    exists (to_signed 4 (from_bytes bs)). split; [reflexivity|].
    unfold to_signed. change (2 ^ (8 * Z.of_nat 4 - 1)) with (2 ^ 31).
    change (2 ^ (8 * Z.of_nat 4)) with (2 ^ 32).
    destruct (from_bytes bs <? 2 ^ 31) eqn:T.
    + apply Z.ltb_lt in T. split; [lia|].
      rewrite Z.mod_small by lia. rewrite <- H. apply le_bytes_from_bytes.
    + apply Z.ltb_ge in T. split; [lia|].
      replace ((from_bytes bs - 2 ^ 32) mod 2 ^ 32) with (from_bytes bs).
      * rewrite <- H. apply le_bytes_from_bytes.
      * apply Z.mod_unique with (q := -1); lia.
  - intros v Hv. rewrite length_le_bytes.
    destruct (decide (4%nat = 4%nat)); [|contradiction]. f_equal.
    rewrite from_bytes_le_bytes. change (256 ^ Z.of_nat 4) with (2 ^ 32).
    rewrite Z.mod_mod by lia.
    unfold to_signed. change (2 ^ (8 * Z.of_nat 4 - 1)) with (2 ^ 31).
    change (2 ^ (8 * Z.of_nat 4)) with (2 ^ 32).
    destruct (Z.lt_ge_cases v 0) as [Hn|Hp].
    + replace (v mod 2 ^ 32) with (v + 2 ^ 32)
        by (apply Z.mod_unique with (q := -1); lia).
      destruct (v + 2 ^ 32 <? 2 ^ 31) eqn:T; [apply Z.ltb_lt in T; lia|lia].
    + rewrite Z.mod_small by lia.
      destruct (v <? 2 ^ 31) eqn:T; [reflexivity|apply Z.ltb_ge in T; lia].
Qed.

Lemma le_i32_outcomes_witness :
  _le_i32 [x00; x01] = Raise StructError /\
  _le_i32 (le_bytes 4 ((-2) mod 2 ^ 32)) = Ok (-2).
Proof.
  destruct (le_i32_outcomes [x00; x01]) as (H1 & _ & H3). split.
  - apply H1. cbn. lia.
  - apply H3. lia.
Defined.

End IntegerSpec.
